(** * ozzo-di: a type-keyed dependency injection container

    A shallow embedding of [container.go] (package [di]) and the
    verification of its resolution algorithm: registration, the
    lookup / parent / pointer / from-scratch chain of [build], the
    caching of shared providers, field injection and [Call]. *)

From stdpp Require Import gmap strings list fin_maps countable.

Set Default Proof Using "Type".
Set Warnings "-register-all".

(** ** reflect.Type *)

(** reflect.ChanDir *)
Inductive chandir : Type :=
  | RecvDir
  | SendDir
  | BothDir.

(** The part of Go's type language that [build] and [inject] look at.
    Struct and interface types are nominal, as in Go: recursive types go
    through their name; the other types are type literals. A function
    type says whether its final parameter is variadic ([IsVariadic]):
    that parameter is then listed with its slice type, as [In] gives
    it. *)
Inductive type : Type :=
  | TBool
  | TInt
  | TString
  | TStruct (name : string)
  | TInterface (name : string)
  | TPtr (elem : type)
  | TSlice (elem : type)
  | TArray (len : nat) (elem : type)
  | TMap (key elem : type)
  | TChan (dir : chandir) (elem : type)
  | TFunc (ins outs : list type) (variadic : bool).

(** [*reflect.rtype], the dynamic type of every reflect.Type value. *)
Definition rtype_ptr : type := TPtr (TStruct "reflect.rtype").

(** reflect.Kind *)
Inductive kind : Type :=
  | KBool | KInt | KString | KStruct | KInterface | KPtr | KSlice | KArray
  | KMap | KChan | KFunc.

Definition Kind (t : type) : kind :=
  match t with
  | TBool => KBool
  | TInt => KInt
  | TString => KString
  | TStruct _ => KStruct
  | TInterface _ => KInterface
  | TPtr _ => KPtr
  | TSlice _ => KSlice
  | TArray _ _ => KArray
  | TMap _ _ => KMap
  | TChan _ _ => KChan
  | TFunc _ _ _ => KFunc
  end.

Global Instance kind_eq_dec : EqDecision kind.
Proof. solve_decision. Defined.

(** Types are the keys of the container's map, so they must be countable.
    They are coded as trees over numbers and names. *)
Section type_countable.

Definition dir_enc (d : chandir) : nat :=
  match d with
  | RecvDir => 1
  | SendDir => 2
  | BothDir => 3
  end.

Definition dir_dec (n : nat) : chandir :=
  match n with
  | 1 => RecvDir
  | 2 => SendDir
  | _ => BothDir
  end.

Fixpoint type_enc (t : type) : gen_tree (nat + string) :=
  match t with
  | TBool => GenLeaf (inl 0)
  | TInt => GenLeaf (inl 1)
  | TString => GenLeaf (inl 2)
  | TStruct n => GenNode 0 [GenLeaf (inr n)]
  | TInterface n => GenNode 1 [GenLeaf (inr n)]
  | TPtr e => GenNode 2 [type_enc e]
  | TSlice e => GenNode 3 [type_enc e]
  | TArray n e => GenNode 4 [GenLeaf (inl n); type_enc e]
  | TMap k e => GenNode 5 [type_enc k; type_enc e]
  | TChan d e => GenNode 6 [GenLeaf (inl (dir_enc d)); type_enc e]
  | TFunc ins outs v =>
      GenNode 7 [GenLeaf (inl (if v then 1 else 0));
                 GenNode 0 (map type_enc ins); GenNode 0 (map type_enc outs)]
  end.

Fixpoint type_dec (g : gen_tree (nat + string)) : type :=
  match g with
  | GenLeaf (inl 1) => TInt
  | GenLeaf (inl 2) => TString
  | GenNode 0 [GenLeaf (inr n)] => TStruct n
  | GenNode 1 [GenLeaf (inr n)] => TInterface n
  | GenNode 2 [e] => TPtr (type_dec e)
  | GenNode 3 [e] => TSlice (type_dec e)
  | GenNode 4 [GenLeaf (inl n); e] => TArray n (type_dec e)
  | GenNode 5 [k; e] => TMap (type_dec k) (type_dec e)
  | GenNode 6 [GenLeaf (inl d); e] => TChan (dir_dec d) (type_dec e)
  | GenNode 7 [GenLeaf (inl v); GenNode 0 ins; GenNode 0 outs] =>
      TFunc (map type_dec ins) (map type_dec outs)
        (match v with 0 => false | _ => true end)
  | _ => TBool
  end.

Lemma type_ind_nested (P : type → Prop) :
  P TBool → P TInt → P TString →
  (∀ n, P (TStruct n)) → (∀ n, P (TInterface n)) →
  (∀ e, P e → P (TPtr e)) → (∀ e, P e → P (TSlice e)) →
  (∀ n e, P e → P (TArray n e)) →
  (∀ k e, P k → P e → P (TMap k e)) →
  (∀ d e, P e → P (TChan d e)) →
  (∀ ins outs v, Forall P ins → Forall P outs → P (TFunc ins outs v)) →
  ∀ t, P t.
Proof.
  intros Hb Hi Hs Hst Hif Hp Hsl Ha Hm Hc Hf.
  fix IH 1. intros [ | | | n | n | e | e | n e | k e | d e | ins outs v ].
  - exact Hb.
  - exact Hi.
  - exact Hs.
  - apply Hst.
  - apply Hif.
  - apply Hp, IH.
  - apply Hsl, IH.
  - apply Ha, IH.
  - apply Hm; apply IH.
  - apply Hc, IH.
  - apply Hf.
    + induction ins as [|x l IHl]; constructor; [apply IH | exact IHl].
    + induction outs as [|x l IHl]; constructor; [apply IH | exact IHl].
Qed.

Lemma type_dec_enc (t : type) : type_dec (type_enc t) = t.
Proof.
  induction t as [ | | | n | n | e IHe | e IHe | n e IHe | k e IHk IHe
                 | d e IHe | ins outs v Hins Houts ] using type_ind_nested;
    simpl; try congruence.
  - rewrite IHe. by destruct d.
  - f_equal.
    + induction Hins as [|x l Hx _ IHl]; simpl; [done | by rewrite Hx, IHl].
    + induction Houts as [|x l Hx _ IHl]; simpl; [done | by rewrite Hx, IHl].
    + by destruct v.
Qed.

Global Instance type_eq_dec : EqDecision type.
Proof.
  intros x y. destruct (decide (type_enc x = type_enc y)) as [H|H].
  - left. rewrite <- (type_dec_enc x), <- (type_dec_enc y), H. reflexivity.
  - right. intros ->. apply H. reflexivity.
Defined.

Global Instance type_countable : Countable type :=
  inj_countable' type_enc type_dec type_dec_enc.

End type_countable.

(** ** Go values and memory *)

Definition loc := nat.   (* address of a variable on the heap *)
Definition cid := nat.   (* address of a [container] *)
Definition pid := nat.   (* identity of a [Provider] closure *)
Definition fid := nat.   (* identity of a function value *)

(** A Go value. [VZero] is zeroed memory, the zero value at every type:
    the nil pointer, interface, slice, map, channel and func, the zero
    scalar and the struct whose fields are all zero. *)
Inductive value : Type :=
  | VZero
  | VBool (b : bool)
  | VInt (z : Z)
  | VStr (s : string)
  | VStruct (fs : list value)      (* field values, in declaration order *)
  | VPtr (a : loc)                 (* non-nil pointer *)
  | VIface (t : type) (v : value)  (* non-nil interface: dynamic type, value *)
  | VColl (elems : list value)     (* contents of a slice, array, map, channel *)
  | VHandle (a : loc)              (* non-nil map or channel *)
  | VFunc (f : fid)
  | VType (t : type).              (* a reflect.Type descriptor *)

(** A non-nil [interface{}]: a value with its dynamic type. *)
Record dyn : Type := Dyn { dtype : type; dval : value }.

(** reflect.Value. [Invalid] is the zero Value. A Value either holds its
    datum ([Imm]) or designates a variable ([Ref], flagAddr: CanAddr);
    [ro] is flagRO, set on Values reached through unexported fields. *)
Inductive storage : Type :=
  | Imm (v : value)
  | Ref (a : loc).

Inductive rvalue : Type :=
  | Invalid
  | RV (t : type) (st : storage) (ro : bool).

(** What a container stores under a type: the three dynamic types that
    [values map[reflect.Type]interface{}] ever holds. *)
Inductive binding : Type :=
  | BType (t : type)                    (* reflect.Type: type mapped to a type *)
  | BProvider (p : pid) (shared : bool) (* providerBinding *)
  | BValue (v : rvalue).                (* reflect.Value: instance *)

Record container : Type := Container {
  parent : option cid;
  values : gmap type binding
}.

(** The program state: the containers, the heap, and the log of the
    provider calls made by [build] (ghost state, for counting). *)
Record world : Type := World {
  conts : gmap cid container;
  heap : list value;
  calls : list pid
}.

(** NewContainer: [&container{values: make(map...)}]. Every address that
    was never written designates such a container. *)
Definition NewContainer : container := Container None ∅.

Definition cont (w : world) (c : cid) : container :=
  default NewContainer (conts w !! c).

Definition set_cont (c : cid) (k : container) (w : world) : world :=
  World (<[c := k]> (conts w)) (heap w) (calls w).

Definition set_heap (h : list value) (w : world) : world :=
  World (conts w) h (calls w).

Definition set_calls (l : list pid) (w : world) : world :=
  World (conts w) (heap w) l.

Definition load (w : world) (a : loc) : value := default VZero (heap w !! a).

Definition store (a : loc) (v : value) (w : world) : world :=
  set_heap (<[a := v]> (heap w)) w.

(** A fresh zeroed variable. *)
Definition alloc (v : value) (w : world) : loc * world :=
  (length (heap w), set_heap (heap w ++ [v]) w).

(** ** Outcomes: return, panic, or no result *)

(** A panic leaves the state as it was when raised (it can be recovered).
    [Unfinished] is a computation that does not end: a provider that
    loops, or recursion deeper than the fuel given. *)
Inductive outcome (A : Type) : Type :=
  | Ok (a : A) (w : world)
  | Panic (w : world)
  | Unfinished.
Arguments Ok {A} a w.
Arguments Panic {A} w.
Arguments Unfinished {A}.

Definition M (A : Type) : Type := world → outcome A.

Definition ret {A} (a : A) : M A := fun w => Ok a w.
Definition panic {A} : M A := fun w => Panic w.
Definition unfinished {A} : M A := fun _ => Unfinished.
Definition bind {A B} (m : M A) (k : A → M B) : M B :=
  fun w => match m w with
           | Ok a w' => k a w'
           | Panic w' => Panic w'
           | Unfinished => Unfinished
           end.

Notation "'let*' x ':=' m 'in' k" := (bind m (fun x => k))
  (at level 10, x name, m at level 100, k at level 200).
Notation "m ';;;' k" := (bind m (fun _ => k))
  (at level 100, k at level 200, right associativity).

(** ** Struct declarations *)

(** reflect.StructField: the name decides whether the field is exported
    (for an embedded field, the name of its type); the tag is kept as its
    key/value pairs, which is what [StructTag.Get] reads. *)
Record field : Type := Field {
  f_name : string;
  f_type : type;
  f_exported : bool;               (* PkgPath is empty *)
  f_anonymous : bool;              (* Anonymous: an embedded field *)
  f_tag : list (string * string)
}.

(** StructTag.Get: the value under [key], the empty string when absent. *)
Fixpoint Tag_Get (tag : list (string * string)) (key : string) : string :=
  match tag with
  | [] => ""
  | (k, v) :: rest => if decide (k = key) then v else Tag_Get rest key
  end.

Definition injectTag : string := "inject".

(** ** The program of container_test.go *)

(** The types that the tests declare, the providers and the function they
    pass to the container: the concrete program on which the properties
    below are exercised. *)
Definition Foo_t : type := TStruct "Foo".
Definition Bar_t : type := TInterface "Bar".
Definition Writer_t : type := TInterface "Writer".
Definition ResponseWriter_t : type := TStruct "ResponseWriter".
Definition Request_t : type := TStruct "Request".
Definition Context_t : type := TStruct "Context".
Definition Controller_t : type := TStruct "Controller".

Definition inject_true : list (string * string) := [("inject", "true")].

Definition test_Fields (name : string) : list field :=
  if decide (name = "Foo") then
    [Field "a" TString false false []]
  else if decide (name = "ResponseWriter") then
    [Field "Foo" (TPtr Foo_t) true false inject_true;
     Field "t" TInt false false []]
  else if decide (name = "Request") then
    [Field "Bar" Bar_t true false inject_true]
  else if decide (name = "Context") then
    [Field "data" TString false false []]
  else if decide (name = "Controller") then
    [Field "Context" (TPtr Context_t) true true inject_true;
     Field "Response" Writer_t true false inject_true;
     Field "response" Writer_t false false inject_true;
     Field "Response2" Writer_t true false inject_true;
     Field "Response3" Writer_t true false [];
     Field "Request" Request_t true false inject_true;
     Field "action" TString false false []]
  else [].

(** [*Foo] has method [test], [*ResponseWriter] has method [Write]. *)
Definition test_Implements (x dst : type) : bool :=
  bool_decide (x = TPtr Foo_t ∧ dst = Bar_t)
  || bool_decide (x = TPtr ResponseWriter_t ∧ dst = Writer_t).

Definition test_ConvertibleTo (x dst : type) : bool :=
  bool_decide (x = dst) || test_Implements x dst.

(** TestBuildProvider: [func(Container) reflect.Value { return
    reflect.ValueOf(&Foo{"abc"}) }]. *)
Definition test_provider (p : pid) (c : cid) (w : world) : outcome rvalue :=
  let (a, w') := alloc (VStruct [VStr "abc"]) w in
  Ok (RV (TPtr Foo_t) (Imm (VPtr a)) false) w'.

(** TestCall: [func(cc *Context, w Writer, s string) (string, string,
    string) { return cc.data, w.Write("test"), s }]. *)
Definition test_function (f : fid) (vs : list value) (w : world)
    : outcome (list value) :=
  match vs with
  | [VPtr a; _; s] =>
      Ok [default VZero (match load w a with
                         | VStruct fs => fs !! 0
                         | _ => None
                         end);
          VStr "test"; s] w
  | _ => Panic w
  end.

Definition empty_world : world := World ∅ [] [].

(** TestInject: [&Context{"abc"}], [&ResponseWriter{t: 123}] as [Writer]
    and [&Foo{"xyz"}] as [Bar] are registered in container 0, and
    [con := &Controller{}] is to be injected. The variables are 0, 1, 2
    and, for [*con], 3. *)
Definition inject_world : world :=
  World
    {[ 0 := Container None
              (<[Bar_t := BValue (RV (TPtr Foo_t) (Imm (VPtr 2)) false)]>
               (<[Writer_t :=
                    BValue (RV (TPtr ResponseWriter_t) (Imm (VPtr 1)) false)]>
                {[ TPtr Context_t :=
                     BValue (RV (TPtr Context_t) (Imm (VPtr 0)) false) ]})) ]}
    [VStruct [VStr "abc"]; VStruct [VZero; VInt 123]; VStruct [VStr "xyz"]; VZero]
    [].


(** ** The container *)

Section di.

(** The program around the container: its struct declarations
    ([t.NumField()], [t.Field(i)]), which types implement which
    interfaces, reflect's convertibility relation, and the bodies of
    the providers and of the functions handed to [Call]. A provider
    receives the container it was called on and the whole state. *)
Variable Fields : string → list field.
Variable Implements : type → type → bool.
Variable ConvertibleTo : type → type → bool.
Variable penv : pid → cid → world → outcome rvalue.
Variable fenv : fid → list value → world → outcome (list value).

(** *** The reflect operations used *)

Definition ValueOf (d : dyn) : rvalue := RV (dtype d) (Imm (dval d)) false.
Definition TypeOf (d : dyn) : type := dtype d.
Definition PtrTo (t : type) : type := TPtr t.

Definition read (w : world) (st : storage) : value :=
  match st with
  | Imm v => v
  | Ref a => load w a
  end.

Definition CanAddr (v : rvalue) : bool :=
  match v with
  | RV _ (Ref _) _ => true
  | _ => false
  end.

(** [v.Addr()], called only when [v.CanAddr()]. *)
Definition Addr (v : rvalue) : rvalue :=
  match v with
  | RV t (Ref a) ro => RV (TPtr t) (Imm (VPtr a)) ro
  | _ => Invalid
  end.

(** [v.Elem()]: the variable a pointer points to (addressable), the
    value an interface holds, the zero Value for nil; a panic on any
    other kind. The memory of a type descriptor is not modelled. *)
Definition Elem (v : rvalue) : M rvalue := fun w =>
  match v with
  | Invalid => Panic w
  | RV (TPtr e) st ro =>
      match read w st with
      | VPtr a => Ok (RV e (Ref a) ro) w
      | VType _ => Ok (RV e (Imm VZero) ro) w
      | _ => Ok Invalid w
      end
  | RV (TInterface _) st ro =>
      match read w st with
      | VIface dt dv => Ok (RV dt (Imm dv) ro) w
      | _ => Ok Invalid w
      end
  | RV _ _ _ => Panic w
  end.

(** [reflect.New(t)]: a pointer to a new zeroed variable. *)
Definition New (t : type) : M rvalue := fun w =>
  let (a, w') := alloc VZero w in
  Ok (RV (TPtr t) (Imm (VPtr a)) false) w'.

Definition MakeSlice (t : type) : M rvalue :=
  ret (RV t (Imm (VColl [])) false).

Definition MakeMap (t : type) : M rvalue := fun w =>
  let (a, w') := alloc (VColl []) w in
  Ok (RV t (Imm (VHandle a)) false) w'.

(** [reflect.MakeChan(t, 0)]: panics unless [t] is a channel type with
    both directions. *)
Definition MakeChan (t : type) : M rvalue := fun w =>
  match t with
  | TChan BothDir _ =>
      let (a, w') := alloc (VColl []) w in
      Ok (RV t (Imm (VHandle a)) false) w'
  | _ => Panic w
  end.

(** [v.Interface()]: panics on the zero Value and on read-only Values. *)
Definition Interface (v : rvalue) : M (option dyn) := fun w =>
  match v with
  | Invalid => Panic w
  | RV t st ro =>
      if ro then Panic w
      else match t with
           | TInterface _ =>
               match read w st with
               | VIface dt dv => Ok (Some (Dyn dt dv)) w
               | _ => Ok None w
               end
           | _ => Ok (Some (Dyn t (read w st))) w
           end
  end.

(** A bidirectional channel can be assigned to a channel type of either
    direction with the same element type. *)
Definition chan_assignable (xt dst : type) : bool :=
  match xt, dst with
  | TChan BothDir e, TChan _ e' => bool_decide (e = e')
  | _, _ => false
  end.

(** [xt.AssignableTo(dst)]: identical types, a bidirectional channel to
    a channel type, or an interface that [xt] implements. *)
Definition AssignableTo (xt dst : type) : bool :=
  bool_decide (xt = dst)
  || chan_assignable xt dst
  || (bool_decide (Kind dst = KInterface) && Implements xt dst).

(** The value stored when a value of type [xt] is assigned to a
    variable of type [dst]: boxed when [dst] is an interface. *)
Definition assign (dst xt : type) (v : value) : value :=
  if bool_decide (Kind dst = KInterface) && negb (bool_decide (Kind xt = KInterface))
  then VIface xt v
  else v.

(** The fields of the struct stored in a variable; zeroed memory is the
    struct of [n] zero fields. *)
Definition struct_fields (n : nat) (v : value) : list value :=
  match v with
  | VStruct fs => fs
  | _ => replicate n VZero
  end.

Definition get_field (n i : nat) (v : value) : value :=
  default VZero (struct_fields n v !! i).

Definition set_field (n i : nat) (x v : value) : value :=
  VStruct (<[i := x]> (struct_fields n v)).

(** [v.Field(i).CanSet()]: addressable and not read-only; a Value is
    read-only when obtained through an unexported field. *)
Definition Field_CanSet (v : rvalue) (tf : field) : bool :=
  match v with
  | RV _ (Ref _) ro => negb ro && f_exported tf
  | _ => false
  end.

(** [v.Field(i).Set(x)], called only when the field can be set: panics
    when [x] is the zero Value, is read-only, or is not assignable to
    the field's type. *)
Definition Field_Set (v : rvalue) (n i : nat) (tf : field) (x : rvalue) : M unit :=
  fun w =>
  match v, x with
  | RV _ (Ref a) _, RV xt st ro =>
      if ro then Panic w
      else if negb (AssignableTo xt (f_type tf)) then Panic w
      else Ok tt (store a (set_field n i (assign (f_type tf) xt (read w st)) (load w a)) w)
  | _, _ => Panic w
  end.

(** [reflect.ValueOf(f).Call(in)]: panics for a nil function and for an
    argument that is the zero Value, read-only or not assignable to its
    parameter; the results come back as Values of the result types. *)
Definition arg_value (w : world) (targ : type) (x : rvalue) : option value :=
  match x with
  | Invalid => None
  | RV xt st ro =>
      if ro then None
      else if AssignableTo xt targ then Some (assign targ xt (read w st))
      else None
  end.

Fixpoint arg_values (w : world) (pin : list type) (args : list rvalue)
  : option (list value) :=
  match pin, args with
  | [], [] => Some []
  | targ :: pin', x :: args' =>
      match arg_value w targ x, arg_values w pin' args' with
      | Some v, Some vs => Some (v :: vs)
      | _, _ => None
      end
  | _, _ => None
  end.

(** For a variadic function, the arguments from the final parameter on
    must each be assignable to the element type of that parameter, and
    are passed together as one slice; too few arguments is a panic. *)
Fixpoint variadic_values (w : world) (pin : list type) (args : list rvalue)
  : option (list value) :=
  match pin with
  | [] => None   (* a variadic function has a final parameter *)
  | targ :: pin' =>
      match pin' with
      | [] =>
          match targ with
          | TSlice elem =>
              match mapM (arg_value w elem) args with
              | Some xs => Some [VColl xs]
              | None => None
              end
          | _ => None
          end
      | _ :: _ =>
          match args with
          | x :: args' =>
              match arg_value w targ x, variadic_values w pin' args' with
              | Some v, Some vs => Some (v :: vs)
              | _, _ => None
              end
          | [] => None
          end
      end
  end.

(** The arguments that the function receives, if [Call] accepts [args]. *)
Definition call_values (w : world) (pin : list type) (variadic : bool)
    (args : list rvalue) : option (list value) :=
  if variadic then variadic_values w pin args else arg_values w pin args.

Definition Value_Call (f : dyn) (args : list rvalue) : M (list rvalue) :=
  fun w =>
  match dtype f, dval f with
  | TFunc pin pout variadic, VFunc id =>
      match call_values w pin variadic args with
      | Some vs =>
          match fenv id vs w with
          | Ok rs w' => Ok (zip_with (fun t r => RV t (Imm r) false) pout rs) w'
          | Panic w' => Panic w'
          | Unfinished => Unfinished
          end
      | None => Panic w
      end
  | _, _ => Panic w
  end.

(** *** Registration *)

Definition set_value (c : cid) (t : type) (b : binding) (w : world) : world :=
  set_cont c (Container (parent (cont w c)) (<[t := b]> (values (cont w c)))) w.

Definition ParentContainer (c : cid) (w : world) : option cid :=
  parent (cont w c).

Definition SetParentContainer (c : cid) (p : option cid) (w : world) : world :=
  set_cont c (Container p (values (cont w c))) w.

Definition HasRegistered (c : cid) (t : type) (w : world) : bool :=
  bool_decide (is_Some (values (cont w c) !! t)).

Definition Unregister (c : cid) (t : type) (w : world) : world :=
  set_cont c (Container (parent (cont w c)) (delete t (values (cont w c)))) w.

Definition Register (c : cid) (val : dyn) (w : world) : world :=
  set_value c (TypeOf val) (BValue (ValueOf val)) w.

(** [val.(reflect.Type)]: only type descriptors implement reflect.Type. *)
Definition as_Type (val : dyn) : option type :=
  match dval val with
  | VType vt => Some vt
  | _ => None
  end.

Definition RegisterAs (c : cid) (val : dyn) (t : type) : M unit := fun w =>
  match as_Type val with
  | Some vt =>
      if negb (ConvertibleTo vt t) then Panic w
      else Ok tt (set_value c t (BType vt) w)
  | None =>
      let vt := TypeOf val in
      if negb (ConvertibleTo vt t) then Panic w
      else Ok tt (set_value c t (BValue (ValueOf val)) w)
  end.

Definition RegisterProvider (c : cid) (p : pid) (t : type) (shared : bool)
    (w : world) : world :=
  set_value c t (BProvider p shared) w.

(** *** Resolution *)

(** [fb.provider(c)]: the provider runs on the current state; the call
    is logged. *)
Definition invoke (p : pid) (c : cid) : M rvalue := fun w =>
  match penv p c w with
  | Ok v w' => Ok v (set_calls (calls w ++ [p]) w')
  | Panic w' => Panic (set_calls (calls w ++ [p]) w')
  | Unfinished => Unfinished
  end.

(** [for v.Kind() == reflect.Ptr { v = v.Elem() }] *)
Fixpoint deref (fuel : nat) (v : rvalue) : M rvalue :=
  match v with
  | RV (TPtr _) _ _ =>
      match fuel with
      | 0 => unfinished
      | S fuel' => let* v' := Elem v in deref fuel' v'
      end
  | _ => ret v
  end.

(** The body of the field loop of [inject], for field [i]. *)
Definition inject_field (rec : type → M rvalue) (v : rvalue) (n i : nat)
    (tf : field) : M unit :=
  if Field_CanSet v tf && negb (bool_decide (Tag_Get (f_tag tf) injectTag = ""))
  then let* x := rec (f_type tf) in Field_Set v n i tf x
  else ret tt.

(** [for i := 0; i < v.NumField(); i++ { ... }], from field [i] on. *)
Fixpoint inject_fields (rec : type → M rvalue) (v : rvalue) (n i : nat)
    (fs : list field) : M unit :=
  match fs with
  | [] => ret tt
  | tf :: fs' =>
      inject_field rec v n i tf;;; inject_fields rec v n (S i) fs'
  end.

(** [inject], with the resolver it calls for the fields. *)
Definition inject_with (rec : type → M rvalue) (fuel : nat) (v : rvalue) : M unit :=
  let* v := deref fuel v in
  match v with
  | RV (TStruct name) _ _ =>
      inject_fields rec v (length (Fields name)) 0 (Fields name)
  | _ => ret tt
  end.

(** The last part of [build]: no mapping found and no parent. *)
Definition build_fallback (rec : type → M rvalue)
    (inj : rvalue → M unit) (c : cid) (t : type) : M rvalue := fun w =>
  (* try the pointer version *)
  let ptr := PtrTo t in
  if bool_decide (is_Some (values (cont w c) !! ptr))
  then (let* v := rec ptr in Elem v) w
  else
    (* build from scratch *)
    match t with
    | TStruct _ =>
        (let* r := New t in inj r;;; Elem r) w
    | TSlice _ => MakeSlice t w
    | TMap _ _ => MakeMap t w
    | TChan _ _ => MakeChan t w
    | TPtr e =>
        (let* v := rec e in
         if CanAddr v then ret (Addr v)
         else let* r := New t in Elem r) w
    | _ => (let* r := New t in Elem r) w
    end.

Fixpoint build (fuel : nat) (c : cid) (t : type) : M rvalue :=
  match fuel with
  | 0 => unfinished
  | S fuel' => fun w =>
      match values (cont w c) !! t with
      | Some (BType vt) =>          (* type mapped to interface *)
          build fuel' c vt w
      | Some (BProvider p shared) => (* type mapped to provider func *)
          if negb shared then invoke p c w
          else (let* v := invoke p c in
                fun w' => Ok v (set_value c t (BValue v) w')) w
      | Some (BValue v) =>           (* type mapped to instance value *)
          Ok v w
      | None =>
          (* no mapping found, try parent container, if any *)
          match parent (cont w c) with
          | Some p => build fuel' p t w
          | None =>
              build_fallback (build fuel' c)
                (inject_with (build fuel' c) fuel') c t w
          end
      end
  end.

Definition inject (fuel : nat) (c : cid) (v : rvalue) : M unit :=
  inject_with (build fuel c) fuel v.

(** *** The injection methods *)

Definition Make (fuel : nat) (c : cid) (t : type) : M (option dyn) :=
  let* v := build fuel c t in Interface v.

Definition Inject (fuel : nat) (c : cid) (val : dyn) : M unit :=
  inject fuel c (ValueOf val).

(** [for i := 0; i < t.NumIn(); i++ { in[i] = c.build(t.In(i)) }],
    with [k] rounds left. *)
Fixpoint Call_loop (rec : type → M rvalue) (pin : list type) (k i : nat)
    (args : list rvalue) : M (list rvalue) :=
  match k with
  | 0 => ret args
  | S k' =>
      match pin !! i with
      | Some ti =>
          let* v := rec ti in Call_loop rec pin k' (S i) (<[i := v]> args)
      | None => panic
      end
  end.

Fixpoint Interfaces (s : list rvalue) : M (list (option dyn)) :=
  match s with
  | [] => ret []
  | rv :: s' =>
      let* x := Interface rv in
      let* r := Interfaces s' in
      ret (x :: r)
  end.

Definition Call (fuel : nat) (c : cid) (f : dyn) : M (list (option dyn)) :=
  match TypeOf f with
  | TFunc pin _ _ =>
      let* args := Call_loop (build fuel c) pin (length pin) 0
                     (replicate (length pin) Invalid) in
      let* s := Value_Call f args in
      Interfaces s
  | _ => panic  (* t.NumIn() panics if t is not a func *)
  end.

(** *** InterfaceOf *)

(** [for t.Kind() == reflect.Ptr { t = t.Elem() }] *)
Fixpoint strip_pointers (t : type) : type :=
  match t with
  | TPtr e => strip_pointers e
  | _ => t
  end.

(** [reflect.TypeOf(nil)] is the nil Type, on which [Kind()] panics. *)
Definition InterfaceOf (iface : option dyn) : M type := fun w =>
  match iface with
  | None => Panic w
  | Some d =>
      let t := strip_pointers (TypeOf d) in
      if negb (bool_decide (Kind t = KInterface)) then Panic w
      else Ok t w
  end.

(** *** Notions used to state the properties *)

(** Counting the logged calls of one provider. *)
Definition invocations (f : pid) (w : world) : nat :=
  length (filter (λ p, p = f) (calls w)).

(** [k] successive resolutions of [t], results in order. *)
Fixpoint resolve_times (k fuel : nat) (c : cid) (t : type) : M (list rvalue) :=
  match k with
  | 0 => ret []
  | S k' =>
      let* v := build fuel c t in
      let* vs := resolve_times k' fuel c t in
      ret (v :: vs)
  end.

(** Successive runs of provider [f] on container [c], each starting
    where the one before ended: the values they return. *)
Inductive provider_runs (f : pid) (c : cid) : world → list rvalue → world → Prop :=
  | runs_nil w : provider_runs f c w [] w
  | runs_cons w v w1 vs w2 :
      penv f c w = Ok v w1 →
      provider_runs f c (set_calls (calls w ++ [f]) w1) vs w2 →
      provider_runs f c w (v :: vs) w2.

(** Resolving a list of types one after the other, left to right, each
    from the state the one before left: the values obtained. *)
Inductive resolve_all (rec : type → M rvalue) :
    list type → world → list rvalue → world → Prop :=
  | resolve_nil w : resolve_all rec [] w [] w
  | resolve_cons t ts w v w1 vs w2 :
      rec t w = Ok v w1 →
      resolve_all rec ts w1 vs w2 →
      resolve_all rec (t :: ts) w (v :: vs) w2.


(** The state a computation ends in, by return or by panic. *)
Definition final {A} (o : outcome A) : option world :=
  match o with
  | Ok _ w => Some w
  | Panic w => Some w
  | Unfinished => None
  end.

(** [w'] differs from [w] in the containers' maps at most in that some
    shared providers were replaced by the instances they produced. *)
Definition only_caches (w w' : world) : Prop :=
  ∀ (c : cid) (u : type),
    values (cont w' c) !! u = values (cont w c) !! u
    ∨ ∃ p v, values (cont w c) !! u = Some (BProvider p true)
             ∧ values (cont w' c) !! u = Some (BValue v).

(** The variable at [a] holds in [w'] what it held in [w]. *)
Definition keeps (a : loc) (w w' : world) : Prop :=
  ∀ x, heap w !! a = Some x → heap w' !! a = Some x.

(** The test of [inject] on field [tf] of the struct Value [v]:
    [f.CanSet() && tf.Tag.Get(injectTag) != ""]. *)
Definition injectable (v : rvalue) (tf : field) : bool :=
  Field_CanSet v tf && negb (bool_decide (Tag_Get (f_tag tf) injectTag = "")).

(** A Value that [Set] accepts for a field of type [ft], and the value
    the field then holds. *)
Definition settable_to (x : rvalue) (ft : type) : Prop :=
  match x with
  | RV xt _ ro => ro = false ∧ AssignableTo xt ft = true
  | Invalid => False
  end.

Definition stored_from (w : world) (ft : type) (x : rvalue) : value :=
  match x with
  | RV xt st _ => assign ft xt (read w st)
  | Invalid => VZero
  end.

(** [tf.Tag.Get(injectTag) != ""] *)
Definition tagged (tf : field) : bool :=
  negb (bool_decide (Tag_Get (f_tag tf) injectTag = "")).



(** The kinds with no case of their own in [build]. *)
Definition plain (t : type) : bool :=
  match t with
  | TStruct _ | TSlice _ | TMap _ _ | TChan _ _ | TPtr _ => false
  | _ => true
  end.




(** Computations all of whose final states are related to the initial one. *)
Definition preserves (R : world → world → Prop) {A} (m : M A) : Prop :=
  ∀ w w', final (m w) = Some w' → R w w'.

(** The reflect operations leave the containers alone. *)
Definition same_conts (w w' : world) : Prop := conts w' = conts w.

(** Reading does not change the state. *)
Definition unchanged (w w' : world) : Prop := w' = w.


(** [n] pointers around [t]: the type [**...*t]. *)
Definition pointers_to (n : nat) (t : type) : type := Nat.iter n TPtr t.

(** Where [build] goes on when it neither returns nor builds: from a
    type mapped to a type, to that type in the same container; from a
    type the container does not bind, to the parent. *)
Definition hop (w : world) (c : cid) (t : type) : option (cid * type) :=
  match values (cont w c) !! t with
  | Some (BType vt) => Some (c, vt)
  | Some _ => None
  | None =>
      match parent (cont w c) with
      | Some p => Some (p, t)
      | None => None
      end
  end.

(** [a] is reached from [c] by following [n] parent links, through
    containers that do not bind [t]. *)
Inductive ancestor (w : world) (t : type) : cid → nat → cid → Prop :=
  | anc_here c : ancestor w t c 0 c
  | anc_up c p n a :
      values (cont w c) !! t = None →
      parent (cont w c) = Some p →
      ancestor w t p n a →
      ancestor w t c (S n) a.

(** A field whose type the map [m] binds to an instance registered by
    value, one that can be assigned to the field. *)
Definition instance_bound (m : gmap type binding) (tf : field) : Prop :=
  ∃ d, m !! f_type tf = Some (BValue (ValueOf d))
       ∧ AssignableTo (dtype d) (f_type tf) = true.

(** What a field of a struct built from scratch holds when the types of
    its injectable fields are bound to such instances. *)
Definition field_value (m : gmap type binding) (tf : field) : value :=
  if f_exported tf && tagged tf then
    match m !! f_type tf with
    | Some (BValue (RV xt (Imm v) _)) => assign (f_type tf) xt v
    | _ => VZero
    end
  else VZero.

(** No container has another parent in [w'] than in [w]. *)
Definition same_parents (w w' : world) : Prop :=
  ∀ c, parent (cont w' c) = parent (cont w c).

(** *** Basic facts about the state *)

Lemma cont_set_cont (c c' : cid) (k : container) (w : world) :
  cont (set_cont c k w) c' = if decide (c = c') then k else cont w c'.
Proof.
  unfold cont, set_cont; simpl. rewrite lookup_insert.
  destruct (decide (c = c')); reflexivity.
Qed.

Lemma cont_set_cont_eq (c : cid) (k : container) (w : world) :
  cont (set_cont c k w) c = k.
Proof. rewrite cont_set_cont. by rewrite decide_True. Qed.

Lemma cont_set_cont_ne (c c' : cid) (k : container) (w : world) :
  c ≠ c' → cont (set_cont c k w) c' = cont w c'.
Proof. intros H. rewrite cont_set_cont. by rewrite decide_False. Qed.

Lemma cont_set_heap (h : list value) (w : world) (c : cid) :
  cont (set_heap h w) c = cont w c.
Proof. reflexivity. Qed.

Lemma cont_set_calls (l : list pid) (w : world) (c : cid) :
  cont (set_calls l w) c = cont w c.
Proof. reflexivity. Qed.

Lemma values_set_value (c c' : cid) (t u : type) (b : binding) (w : world) :
  values (cont (set_value c t b w) c') !! u =
    if decide (c = c' ∧ t = u) then Some b else values (cont w c') !! u.
Proof.
  unfold set_value. rewrite cont_set_cont.
  destruct (decide (c = c')) as [->|Hc]; simpl.
  - rewrite lookup_insert. destruct (decide (t = u)) as [->|Ht].
    + by rewrite decide_True.
    + rewrite decide_False; [done | intros [_ ?]; done].
  - rewrite decide_False; [done | intros [? _]; done].
Qed.

Lemma values_set_value_eq (c : cid) (t : type) (b : binding) (w : world) :
  values (cont (set_value c t b w) c) !! t = Some b.
Proof. rewrite values_set_value. by rewrite decide_True. Qed.

Lemma parent_set_value (c c' : cid) (t : type) (b : binding) (w : world) :
  parent (cont (set_value c t b w) c') = parent (cont w c').
Proof.
  unfold set_value. rewrite cont_set_cont.
  destruct (decide (c = c')) as [->|Hc]; reflexivity.
Qed.

Lemma heap_set_value (c : cid) (t : type) (b : binding) (w : world) :
  heap (set_value c t b w) = heap w.
Proof. reflexivity. Qed.

Lemma calls_set_value (c : cid) (t : type) (b : binding) (w : world) :
  calls (set_value c t b w) = calls w.
Proof. reflexivity. Qed.

Lemma HasRegistered_spec (c : cid) (t : type) (w : world) :
  HasRegistered c t w = true ↔ is_Some (values (cont w c) !! t).
Proof. unfold HasRegistered. apply bool_decide_eq_true. Qed.

Lemma HasRegistered_false (c : cid) (t : type) (w : world) :
  HasRegistered c t w = false ↔ values (cont w c) !! t = None.
Proof.
  unfold HasRegistered. rewrite bool_decide_eq_false.
  rewrite eq_None_not_Some. reflexivity.
Qed.

(** The three binding branches of [build], one step each. *)

Lemma build_instance (fuel : nat) (c : cid) (t : type) (v : rvalue) (w : world) :
  values (cont w c) !! t = Some (BValue v) →
  build (S fuel) c t w = Ok v w.
Proof. intros H. simpl. by rewrite H. Qed.

Lemma build_alias (fuel : nat) (c : cid) (t vt : type) (w : world) :
  values (cont w c) !! t = Some (BType vt) →
  build (S fuel) c t w = build fuel c vt w.
Proof. intros H. simpl. by rewrite H. Qed.

Lemma build_provider (fuel : nat) (c : cid) (t : type) (p : pid) (w : world) :
  values (cont w c) !! t = Some (BProvider p false) →
  build (S fuel) c t w = invoke p c w.
Proof. intros H. simpl. by rewrite H. Qed.

Lemma build_shared (fuel : nat) (c : cid) (t : type) (p : pid) (w : world) :
  values (cont w c) !! t = Some (BProvider p true) →
  build (S fuel) c t w =
    match invoke p c w with
    | Ok v w' => Ok v (set_value c t (BValue v) w')
    | Panic w' => Panic w'
    | Unfinished => Unfinished
    end.
Proof. intros H. simpl. rewrite H. reflexivity. Qed.

Lemma build_parent (fuel : nat) (c p : cid) (t : type) (w : world) :
  values (cont w c) !! t = None →
  parent (cont w c) = Some p →
  build (S fuel) c t w = build fuel p t w.
Proof. intros H1 H2. simpl. by rewrite H1, H2. Qed.

Lemma build_unbound (fuel : nat) (c : cid) (t : type) (w : world) :
  values (cont w c) !! t = None →
  parent (cont w c) = None →
  build (S fuel) c t w =
    build_fallback (build fuel c) (inject_with (build fuel c) fuel) c t w.
Proof. intros H1 H2. simpl. by rewrite H1, H2. Qed.

Lemma Interface_ValueOf (val : dyn) (w : world) :
  Kind (dtype val) ≠ KInterface →
  Interface (ValueOf val) w = Ok (Some val) w.
Proof.
  destruct val as [t v]; simpl. intros Hk.
  destruct t; simpl in *; try reflexivity. congruence.
Qed.

Lemma invocations_app (f : pid) (l : list pid) (w w' : world) :
  calls w' = calls w ++ l →
  invocations f w' = invocations f w + length (filter (λ p, p = f) l).
Proof.
  unfold invocations. intros ->. by rewrite list.filter_app, length_app.
Qed.

Lemma invoke_Ok (p : pid) (c : cid) (w w1 : world) (v : rvalue) :
  penv p c w = Ok v w1 →
  invoke p c w = Ok v (set_calls (calls w ++ [p]) w1).
Proof. unfold invoke. by intros ->. Qed.

(** *** Instance bindings *)

(** C1. After [Register(v)] on a container, building the type of [v] on
    that container returns the stored [reflect.ValueOf(v)] itself, with
    no transformation and no change of state, whatever else the
    container holds and whether or not it has a parent; [Make] hands
    back that Value's [Interface()], which is [v]. *)
Theorem C1_register_then_resolve (fuel : nat) (c : cid) (val : dyn) (w : world) :
  let w' := Register c val w in
  values (cont w' c) !! TypeOf val = Some (BValue (ValueOf val))
  ∧ build (S fuel) c (TypeOf val) w' = Ok (ValueOf val) w'
  ∧ Make (S fuel) c (TypeOf val) w' = Interface (ValueOf val) w'
  ∧ (Kind (TypeOf val) ≠ KInterface →
     Make (S fuel) c (TypeOf val) w' = Ok (Some val) w').
Proof.
  intros w'.
  assert (Hb : values (cont w' c) !! TypeOf val = Some (BValue (ValueOf val)))
    by apply values_set_value_eq.
  split; [exact Hb |]. split; [by apply build_instance |]. split.
  - unfold Make, bind. by rewrite (build_instance _ _ _ _ _ Hb).
  - intros Hk. unfold Make, bind. rewrite (build_instance _ _ _ _ _ Hb).
    by apply Interface_ValueOf.
Qed.

(** *** Providers *)

(** C2. After [RegisterProvider(f, T, true)], the first resolution of [T]
    calls [f] exactly once and replaces the binding of [T] by the
    instance binding of [f]'s result; from then on resolving [T] returns
    that same Value and leaves the state, call log included, as it is:
    over two successive resolutions [f] is called exactly once. *)
Theorem C2_shared_provider_once (fuel : nat) (c : cid) (f : pid) (T : type)
    (w w1 : world) (v : rvalue) :
  let w0 := RegisterProvider c f T true w in
  penv f c w0 = Ok v w1 →
  ∃ w2,
    build (S fuel) c T w0 = Ok v w2
    ∧ calls w2 = calls w0 ++ [f]
    ∧ values (cont w2 c) !! T = Some (BValue v)
    ∧ (∀ c' u, ¬ (c' = c ∧ u = T) →
         values (cont w2 c') !! u = values (cont w1 c') !! u)
    ∧ (∀ fuel', build (S fuel') c T w2 = Ok v w2)
    ∧ (∀ fuel', (let* a := build (S fuel) c T in
                 let* b := build (S fuel') c T in ret (a, b)) w0
                = Ok (v, v) w2)
    ∧ invocations f w2 = S (invocations f w0).
Proof.
  intros w0 Hf.
  set (w2 := set_value c T (BValue v) (set_calls (calls w0 ++ [f]) w1)).
  assert (Hb0 : values (cont w0 c) !! T = Some (BProvider f true))
    by apply values_set_value_eq.
  assert (H1 : build (S fuel) c T w0 = Ok v w2).
  { rewrite (build_shared _ _ _ _ _ Hb0). by rewrite (invoke_Ok _ _ _ _ _ Hf). }
  assert (Hb2 : values (cont w2 c) !! T = Some (BValue v))
    by apply values_set_value_eq.
  exists w2. repeat split.
  - exact H1.
  - exact Hb2.
  - intros c' u Hne. unfold w2. rewrite values_set_value.
    rewrite decide_False; [reflexivity |]. intros [-> ->]. by apply Hne.
  - intros fuel'. by apply build_instance.
  - intros fuel'. unfold bind. rewrite H1.
    by rewrite (build_instance _ _ _ _ _ Hb2).
  - rewrite (invocations_app f [f] w0 w2) by reflexivity.
    rewrite filter_cons_True by reflexivity. simpl. lia.
Qed.

(** C3. After [RegisterProvider(f, T, false)], every resolution of [T]
    calls [f] once and returns what that call returned: [n] successive
    resolutions are [n] successive runs of [f], logged as [n] calls,
    and the binding of [T] is the provider binding before and after
    each of them; [build] itself writes nothing to the container. The
    provider is assumed to return and to leave its own binding alone. *)
Theorem C3_unshared_provider_each_time (n fuel : nat) (c : cid) (f : pid)
    (T : type) (w : world) :
  let w0 := RegisterProvider c f T false w in
  (∀ w', values (cont w' c) !! T = Some (BProvider f false) →
     ∃ v w'', penv f c w' = Ok v w''
              ∧ values (cont w'' c) !! T = Some (BProvider f false)) →
  ∃ vs wn,
    resolve_times n (S fuel) c T w0 = Ok vs wn
    ∧ length vs = n
    ∧ provider_runs f c w0 vs wn
    ∧ calls wn = calls w0 ++ replicate n f
    ∧ invocations f wn = invocations f w0 + n
    ∧ values (cont wn c) !! T = Some (BProvider f false).
Proof.
  intros w0 Hp.
  assert (Hb0 : values (cont w0 c) !! T = Some (BProvider f false))
    by apply values_set_value_eq.
  clearbody w0. revert w0 Hb0.
  induction n as [|n IH]; intros w0 Hb0.
  - exists [], w0. simpl. repeat split; try done.
    + constructor.
    + by rewrite app_nil_r.
  - destruct (Hp w0 Hb0) as (v & w1 & Hf & Hb1).
    set (w1' := set_calls (calls w0 ++ [f]) w1).
    destruct (IH w1') as (vs & wn & Hr & Hl & Hruns & Hc & Hi & Hb); [exact Hb1 |].
    exists (v :: vs), wn. repeat split.
    + cbn [resolve_times]. unfold bind at 1.
      rewrite (build_provider _ _ _ _ _ Hb0), (invoke_Ok _ _ _ _ _ Hf).
      fold w1'. unfold bind at 1. by rewrite Hr.
    + simpl. by rewrite Hl.
    + by eapply runs_cons.
    + rewrite Hc. unfold w1'. simpl. by rewrite <- app_assoc.
    + rewrite Hi. unfold w1'.
      rewrite (invocations_app f [f] w0 (set_calls (calls w0 ++ [f]) w1))
        by reflexivity.
      rewrite filter_cons_True by reflexivity. simpl. lia.
    + exact Hb.
Qed.

(** *** Registration errors *)

(** C5. [RegisterAs(x, Y)] with a value [x] (not a type descriptor) whose
    type is not convertible to [Y] panics and leaves the state as it
    was: no binding is installed, in this container or any other, so
    [HasRegistered(Y)], false before the call, is false after it. *)
Theorem C5_incompatible_registration_rejected (c : cid) (x : dyn) (Y : type)
    (w : world) :
  as_Type x = None →
  ConvertibleTo (TypeOf x) Y = false →
  HasRegistered c Y w = false →
  ∃ w', RegisterAs c x Y w = Panic w'
        ∧ w' = w
        ∧ (∀ c' u, values (cont w' c') !! u = values (cont w c') !! u)
        ∧ HasRegistered c Y w' = false.
Proof.
  intros Hx Hconv Hreg. exists w. repeat split; [| exact Hreg].
  unfold RegisterAs. by rewrite Hx, Hconv.
Qed.

(** The same for a type descriptor: the type it names is the one checked. *)
Lemma RegisterAs_type_incompatible (c : cid) (x : dyn) (vt Y : type) (w : world) :
  as_Type x = Some vt →
  ConvertibleTo vt Y = false →
  RegisterAs c x Y w = Panic w.
Proof. intros Hx Hconv. unfold RegisterAs. by rewrite Hx, Hconv. Qed.

(** *** Parent containers *)


(** *** Pointers and values *)


(** *** Call *)


(** The index loop of [Call] fills [in] with the values resolved in order. *)
Lemma Call_loop_resolve_all (rec : type → M rvalue) (rest : list type)
    (w w' : world) (vs : list rvalue) :
  resolve_all rec rest w vs w' →
  ∀ (done : list type) (vs_done : list rvalue),
    length done = length vs_done →
    Call_loop rec (done ++ rest) (length rest) (length done)
      (vs_done ++ replicate (length rest) Invalid) w
    = Ok (vs_done ++ vs) w'.
Proof.
  induction 1 as [w | t ts w v w1 vs w2 Hrec Hall IH]; intros done vs_done Hlen.
  - simpl. by rewrite !app_nil_r.
  - cbn [Call_loop length].
    rewrite list_lookup_middle by reflexivity.
    unfold bind. rewrite Hrec.
    replace (<[length done := v]> (vs_done ++ replicate (S (length ts)) Invalid))
      with (vs_done ++ v :: replicate (length ts) Invalid).
    2: { rewrite Hlen. cbn [replicate].
         rewrite (insert_app_r_alt vs_done _ (length vs_done)) by lia.
         by rewrite Nat.sub_diag. }
    specialize (IH (done ++ [t]) (vs_done ++ [v])).
    rewrite !length_app in IH. simpl in IH.
    rewrite <- !app_assoc in IH. simpl in IH.
    rewrite Nat.add_1_r in IH. rewrite IH by lia. reflexivity.
Qed.




(** *** What resolution does to the containers *)

Lemma only_caches_refl (w : world) : only_caches w w.
Proof. intros c u. by left. Qed.

Lemma only_caches_trans (w1 w2 w3 : world) :
  only_caches w1 w2 → only_caches w2 w3 → only_caches w1 w3.
Proof.
  intros H12 H23 c u.
  destruct (H12 c u) as [E12 | (p & v & Hp & Hv)],
           (H23 c u) as [E23 | (p' & v' & Hp' & Hv')].
  - left. congruence.
  - right. exists p', v'. split; congruence.
  - right. exists p, v. split; congruence.
  - congruence.
Qed.

Lemma only_caches_conts (w w' : world) : conts w' = conts w → only_caches w w'.
Proof. intros E c u. left. unfold cont. by rewrite E. Qed.

Lemma only_caches_keys (w w' : world) (c : cid) (u : type) :
  only_caches w w' → HasRegistered c u w' = HasRegistered c u w.
Proof.
  intros H. unfold HasRegistered.
  destruct (H c u) as [E | (p & v & Hp & Hv)].
  - by rewrite E.
  - rewrite Hp, Hv. apply bool_decide_ext. split; eauto.
Qed.

Section preserves.
Variable R : world → world → Prop.
Hypothesis R_refl : ∀ w, R w w.
Hypothesis R_trans : ∀ w1 w2 w3, R w1 w2 → R w2 w3 → R w1 w3.

Lemma preserves_ret {A} (a : A) : preserves R (ret a).
Proof using R_refl. intros w w' [= <-]. apply R_refl. Qed.

Lemma preserves_panic {A} : preserves R (@panic A).
Proof using R_refl. intros w w' [= <-]. apply R_refl. Qed.

Lemma preserves_unfinished {A} : preserves R (@unfinished A).
Proof. intros w w' [=]. Qed.

Lemma preserves_bind {A B} (m : M A) (k : A → M B) :
  preserves R m → (∀ a, preserves R (k a)) → preserves R (bind m k).
Proof using R_trans.
  intros Hm Hk w w'. unfold bind.
  destruct (m w) as [a w1 | w1 |] eqn:E; intros Hf.
  - eapply R_trans; [apply Hm; by rewrite E | by eapply Hk].
  - apply Hm. by rewrite E.
  - discriminate.
Qed.

End preserves.

Lemma Elem_conts (v : rvalue) : preserves same_conts (Elem v).
Proof.
  intros w w'. unfold Elem.
  destruct v as [|[] st ro]; simpl; try (intros [= <-]; reflexivity);
    destruct (read w st); intros [= <-]; reflexivity.
Qed.

Lemma New_conts (t : type) : preserves same_conts (New t).
Proof. intros w w' [= <-]. reflexivity. Qed.

Lemma MakeSlice_conts (t : type) : preserves same_conts (MakeSlice t).
Proof. intros w w' [= <-]. reflexivity. Qed.

Lemma MakeMap_conts (t : type) : preserves same_conts (MakeMap t).
Proof. intros w w' [= <-]. reflexivity. Qed.

Lemma MakeChan_conts (t : type) : preserves same_conts (MakeChan t).
Proof.
  intros w w'. unfold MakeChan.
  destruct t as [ | | | | | | | | | [] e | ]; intros [= <-]; reflexivity.
Qed.

Lemma Interface_conts (v : rvalue) : preserves same_conts (Interface v).
Proof.
  intros w w'. unfold Interface.
  destruct v as [|t st []]; try (intros [= <-]; reflexivity).
  destruct t; try (intros [= <-]; reflexivity).
  destruct (read w st); intros [= <-]; reflexivity.
Qed.

Lemma Field_Set_conts (v : rvalue) (n i : nat) (tf : field) (x : rvalue) :
  preserves same_conts (Field_Set v n i tf x).
Proof.
  intros w w'. unfold Field_Set.
  destruct v as [|t [s|a] ro]; try (intros [= <-]; reflexivity).
  destruct x as [|xt st []]; try (intros [= <-]; reflexivity).
  destruct (negb _); intros [= <-]; reflexivity.
Qed.

Lemma preserves_weaken (R R' : world → world → Prop) {A} (m : M A) :
  (∀ w w', R w w' → R' w w') → preserves R m → preserves R' m.
Proof. intros HR Hm w w' Hf. by apply HR, Hm. Qed.

Lemma conts_caches {A} (m : M A) :
  preserves same_conts m → preserves only_caches m.
Proof. apply preserves_weaken. intros w w'. apply only_caches_conts. Qed.

Lemma set_value_caches (c : cid) (t : type) (v : rvalue) (w w1 : world) (p : pid) :
  values (cont w c) !! t = Some (BProvider p true) →
  only_caches w w1 →
  only_caches w (set_value c t (BValue v) w1).
Proof.
  intros Hb H c' u. rewrite values_set_value.
  destruct (decide (c = c' ∧ t = u)) as [[<- <-]|_]; [| apply H].
  right. by exists p, v.
Qed.

Section caches.
Hypothesis providers_cache_only : ∀ p c, preserves only_caches (penv p c).

Lemma invoke_caches (p : pid) (c : cid) : preserves only_caches (invoke p c).
Proof using providers_cache_only.
  intros w w'. unfold invoke.
  destruct (penv p c w) as [v w1 | w1 |] eqn:E; intros [= <-];
    (eapply only_caches_trans;
     [ apply (providers_cache_only p c w w1); by rewrite E
     | by apply only_caches_conts ]).
Qed.

Lemma deref_caches (k : nat) (v : rvalue) : preserves only_caches (deref k v).
Proof.
  revert v. induction k as [|k IH]; intros v; destruct v as [|[] st ro];
    try apply (preserves_ret _ only_caches_refl);
    simpl; try apply preserves_unfinished.
  apply (preserves_bind _ only_caches_trans); [| exact IH].
  apply conts_caches, Elem_conts.
Qed.

Lemma inject_fields_caches (rec : type → M rvalue) (v : rvalue) (n : nat)
    (fs : list field) :
  (∀ t, preserves only_caches (rec t)) →
  ∀ i, preserves only_caches (inject_fields rec v n i fs).
Proof.
  intros Hrec. induction fs as [|tf fs IH]; intros i; simpl.
  - apply (preserves_ret _ only_caches_refl).
  - apply (preserves_bind _ only_caches_trans); [| intros _; apply IH].
    unfold inject_field. destruct (_ && _).
    + apply (preserves_bind _ only_caches_trans); [apply Hrec |].
      intros x. apply conts_caches, Field_Set_conts.
    + apply (preserves_ret _ only_caches_refl).
Qed.

Lemma inject_with_caches (rec : type → M rvalue) (k : nat) (v : rvalue) :
  (∀ t, preserves only_caches (rec t)) →
  preserves only_caches (inject_with rec k v).
Proof.
  intros Hrec. unfold inject_with.
  apply (preserves_bind _ only_caches_trans); [apply deref_caches |].
  intros [|[] st ro]; try apply (preserves_ret _ only_caches_refl).
  by apply inject_fields_caches.
Qed.

Lemma build_fallback_caches (rec : type → M rvalue) (inj : rvalue → M unit)
    (c : cid) (t : type) :
  (∀ t, preserves only_caches (rec t)) →
  (∀ v, preserves only_caches (inj v)) →
  preserves only_caches (build_fallback rec inj c t).
Proof.
  intros Hrec Hinj w w'. unfold build_fallback.
  assert (HNE : ∀ t', preserves only_caches (let* r := New t' in Elem r)).
  { intros t'. apply (preserves_bind _ only_caches_trans).
    - apply conts_caches, New_conts.
    - intros r. apply conts_caches, Elem_conts. }
  destruct (bool_decide _).
  - apply (preserves_bind _ only_caches_trans); [apply Hrec |].
    intros v. apply conts_caches, Elem_conts.
  - destruct t; try apply HNE.
    + apply (preserves_bind _ only_caches_trans);
        [apply conts_caches, New_conts |].
      intros r. apply (preserves_bind _ only_caches_trans); [apply Hinj |].
      intros _. apply conts_caches, Elem_conts.
    + apply (preserves_bind _ only_caches_trans); [apply Hrec |].
      intros v. destruct (CanAddr v); [apply (preserves_ret _ only_caches_refl) |].
      apply HNE.
    + apply conts_caches, MakeSlice_conts.
    + apply conts_caches, MakeMap_conts.
    + apply conts_caches, MakeChan_conts.
Qed.

Lemma build_caches (fuel : nat) :
  ∀ (c : cid) (t : type), preserves only_caches (build fuel c t).
Proof using providers_cache_only.
  induction fuel as [|fuel IH]; intros c t w w'; [intros [=] |].
  simpl. destruct (values (cont w c) !! t) as [[vt | p [] | v] |] eqn:Hb.
  - apply IH.
  - simpl. unfold bind.
    destruct (invoke p c w) as [v w1 | w1 |] eqn:E; intros [= <-].
    + eapply set_value_caches; [exact Hb |]. apply (invoke_caches p c). by rewrite E.
    + apply (invoke_caches p c). by rewrite E.
  - simpl. apply invoke_caches.
  - intros [= <-]. apply only_caches_refl.
  - destruct (parent (cont w c)) as [q|]; [apply IH |].
    apply build_fallback_caches; [apply IH |].
    intros v. apply inject_with_caches, IH.
Qed.

Lemma Make_caches (fuel : nat) (c : cid) (t : type) :
  preserves only_caches (Make fuel c t).
Proof using providers_cache_only.
  apply (preserves_bind _ only_caches_trans); [apply build_caches |].
  intros v. apply conts_caches, Interface_conts.
Qed.

Lemma Inject_caches (fuel : nat) (c : cid) (val : dyn) :
  preserves only_caches (Inject fuel c val).
Proof using providers_cache_only.
  apply inject_with_caches, build_caches.
Qed.

Lemma Call_loop_caches (rec : type → M rvalue) (pin : list type) (k : nat) :
  (∀ t, preserves only_caches (rec t)) →
  ∀ i args, preserves only_caches (Call_loop rec pin k i args).
Proof.
  intros Hrec. induction k as [|k IH]; intros i args; simpl.
  - apply (preserves_ret _ only_caches_refl).
  - destruct (pin !! i); [| apply (preserves_panic _ only_caches_refl)].
    apply (preserves_bind _ only_caches_trans); [apply Hrec |].
    intros v. apply IH.
Qed.

Lemma Interfaces_conts (s : list rvalue) : preserves same_conts (Interfaces s).
Proof.
  induction s as [|rv s IH]; simpl.
  - apply preserves_ret. reflexivity.
  - apply preserves_bind; [unfold same_conts; congruence | apply Interface_conts |].
    intros x. apply preserves_bind; [unfold same_conts; congruence | exact IH |].
    intros r. apply preserves_ret. reflexivity.
Qed.

Lemma Value_Call_caches (f : dyn) (args : list rvalue) :
  (∀ id vs, dval f = VFunc id → preserves only_caches (fenv id vs)) →
  preserves only_caches (Value_Call f args).
Proof.
  intros Hfun w w'. unfold Value_Call.
  destruct (dtype f); try (intros [= <-]; apply only_caches_refl).
  destruct (dval f) as [ | | | | | | | | | id | ] eqn:Hid;
    try (intros [= <-]; apply only_caches_refl).
  destruct (call_values w ins variadic args) as [vs|];
    [| intros [= <-]; apply only_caches_refl].
  destruct (fenv id vs w) as [rs w1 | w1 |] eqn:E; intros [= <-];
    apply (Hfun id vs eq_refl); by rewrite E.
Qed.

Lemma Call_caches (fuel : nat) (c : cid) (f : dyn) :
  (∀ id vs, dval f = VFunc id → preserves only_caches (fenv id vs)) →
  preserves only_caches (Call fuel c f).
Proof using providers_cache_only.
  intros Hfun.
  unfold Call. destruct (TypeOf f); try apply (preserves_panic _ only_caches_refl).
  apply (preserves_bind _ only_caches_trans);
    [apply Call_loop_caches, build_caches |].
  intros args. apply (preserves_bind _ only_caches_trans);
    [by apply Value_Call_caches |].
  intros s. apply conts_caches, Interfaces_conts.
Qed.

End caches.

(** C10. Provided the providers do not themselves register or
    unregister (the most they do to the containers' maps is what
    resolution does), a [Make] or an [Inject], and the loop of [Call]
    that resolves the parameters, change those maps only by putting,
    under a key bound to a shared provider, the instance it produced:
    in every container, for every type, [HasRegistered] answers after
    the call, whether it returned or panicked, what it answered before.
    The same holds for the whole of [Call] when the function it invokes
    is held to what the providers are held to. *)
Theorem C10_resolution_keeps_the_bound_types (fuel : nat) (c : cid)
    (w w' : world) :
  (∀ p c0, preserves only_caches (penv p c0)) →
  (∃ t, final (Make fuel c t w) = Some w')
  ∨ (∃ val, final (Inject fuel c val w) = Some w')
  ∨ (∃ pin, final (Call_loop (build fuel c) pin (length pin) 0
                     (replicate (length pin) Invalid) w) = Some w')
  ∨ (∃ f, final (Call fuel c f w) = Some w'
          ∧ ∀ id vs, dval f = VFunc id → preserves only_caches (fenv id vs)) →
  only_caches w w'
  ∧ ∀ c' u, HasRegistered c' u w' = HasRegistered c' u w.
Proof.
  intros Hp Hrun.
  assert (H : only_caches w w').
  { destruct Hrun as [[t Ht] | [[val Hi] | [[pin Hl] | (f & Hc & Hf)]]].
    - by eapply Make_caches.
    - by eapply Inject_caches.
    - eapply Call_loop_caches; [| exact Hl]. by apply build_caches.
    - by eapply Call_caches. }
  split; [exact H |]. intros c' u. by apply only_caches_keys.
Qed.

(** *** What resolution does to the variables that exist *)

Lemma final_bind {A B} (m : M A) (k : A → M B) (w w' : world) :
  final (bind m k w) = Some w' →
  m w = Panic w' ∨ ∃ a w1, m w = Ok a w1 ∧ final (k a w1) = Some w'.
Proof.
  unfold bind. destruct (m w) as [a w1 | w1 |]; intros Hf.
  - right. by exists a, w1.
  - left. simpl in Hf. congruence.
  - discriminate.
Qed.

Lemma bind_Ok {A B} (m : M A) (k : A → M B) (w w' : world) (b : B) :
  bind m k w = Ok b w' → ∃ a w1, m w = Ok a w1 ∧ k a w1 = Ok b w'.
Proof.
  unfold bind. destruct (m w) as [a w1 | w1 |]; intros Hf; try discriminate.
  by exists a, w1.
Qed.

Lemma keeps_refl (a : loc) (w : world) : keeps a w w.
Proof. by intros x. Qed.

Lemma keeps_trans (a : loc) (w1 w2 w3 : world) :
  keeps a w1 w2 → keeps a w2 w3 → keeps a w1 w3.
Proof. intros H12 H23 x Hx. by apply H23, H12. Qed.

Lemma keeps_heap (a : loc) (w w' : world) : heap w' = heap w → keeps a w w'.
Proof. intros E x. by rewrite E. Qed.

Lemma keeps_alloc (a : loc) (y : value) (w : world) : keeps a w (alloc y w).2.
Proof. intros x Hx. simpl. by apply lookup_app_l_Some. Qed.

Lemma keeps_store (a b : loc) (y : value) (w : world) :
  a ≠ b → keeps a w (store b y w).
Proof. intros Hne x Hx. simpl. by rewrite list_lookup_insert_ne. Qed.

Lemma keeps_load (a : loc) (w w' : world) :
  keeps a w w' → is_Some (heap w !! a) →
  load w' a = load w a ∧ is_Some (heap w' !! a).
Proof.
  intros Hk [x Hx]. pose proof (Hk x Hx) as Hx'.
  unfold load. rewrite Hx, Hx'. eauto.
Qed.

Lemma load_store (a : loc) (y : value) (w : world) :
  is_Some (heap w !! a) → load (store a y w) a = y.
Proof.
  intros [x Hx]. unfold load, store. simpl.
  rewrite list_lookup_insert_eq; [done | by eapply lookup_lt_Some].
Qed.

Lemma store_is_Some (a b : loc) (y : value) (w : world) :
  is_Some (heap w !! a) → is_Some (heap (store b y w) !! a).
Proof.
  intros H. simpl. apply lookup_lt_is_Some. rewrite length_insert.
  by apply lookup_lt_is_Some.
Qed.

Lemma Elem_unchanged (v : rvalue) : preserves unchanged (Elem v).
Proof.
  intros w w'. unfold Elem.
  destruct v as [|[] st ro]; simpl; try (intros [= <-]; reflexivity);
    destruct (read w st); intros [= <-]; reflexivity.
Qed.

Lemma deref_unchanged (k : nat) (v : rvalue) : preserves unchanged (deref k v).
Proof.
  revert v. induction k as [|k IH]; intros v; destruct v as [|[] st ro];
    try (intros w w' [= <-]; reflexivity); simpl;
    try apply preserves_unfinished.
  apply preserves_bind; [unfold unchanged; congruence | apply Elem_unchanged | exact IH].
Qed.

Lemma deref_Ok (k : nat) (v v' : rvalue) (w w' : world) :
  deref k v w = Ok v' w' → w' = w.
Proof. intros H. apply (deref_unchanged k v w w'). by rewrite H. Qed.

Lemma unchanged_keeps (a : loc) {A} (m : M A) :
  preserves unchanged m → preserves (keeps a) m.
Proof. apply preserves_weaken. intros w w' ->. apply keeps_refl. Qed.

Lemma New_keeps (a : loc) (t : type) : preserves (keeps a) (New t).
Proof. intros w w' [= <-]. apply (keeps_alloc a VZero w). Qed.

Lemma MakeMap_keeps (a : loc) (t : type) : preserves (keeps a) (MakeMap t).
Proof. intros w w' [= <-]. apply (keeps_alloc a (VColl []) w). Qed.

Lemma MakeChan_keeps (a : loc) (t : type) : preserves (keeps a) (MakeChan t).
Proof.
  intros w w'. unfold MakeChan.
  destruct t as [ | | | | | | | | | [] e | ]; intros [= <-];
    try apply keeps_refl.
  apply (keeps_alloc a (VColl []) w).
Qed.

Lemma MakeSlice_keeps (a : loc) (t : type) : preserves (keeps a) (MakeSlice t).
Proof. intros w w' [= <-]. apply keeps_refl. Qed.

Lemma Field_Set_keeps (a b : loc) (t : type) (ro : bool) (n i : nat)
    (tf : field) (x : rvalue) :
  a ≠ b → preserves (keeps a) (Field_Set (RV t (Ref b) ro) n i tf x).
Proof.
  intros Hne w w'. unfold Field_Set.
  destruct x as [|xt st []]; try (intros [= <-]; apply keeps_refl).
  destruct (negb _); intros [= <-]; [apply keeps_refl | by apply keeps_store].
Qed.

(** An unaddressable or read-only struct Value: no field is touched. *)
Lemma inject_fields_none (rec : type → M rvalue) (v : rvalue) (n : nat)
    (fs : list field) (w : world) :
  (∀ tf, tf ∈ fs → injectable v tf = false) →
  ∀ i, inject_fields rec v n i fs w = Ok tt w.
Proof.
  induction fs as [|tf fs IH]; intros Hno i; [reflexivity |].
  cbn [inject_fields]. unfold bind, inject_field.
  replace (Field_CanSet v tf && _) with (injectable v tf) by reflexivity.
  rewrite Hno by apply list_elem_of_here. simpl.
  apply IH. intros tf' Hin. apply Hno. by apply list_elem_of_further.
Qed.

Lemma inject_fields_keeps (a b : loc) (rec : type → M rvalue) (t : type)
    (ro : bool) (n : nat) (fs : list field) :
  a ≠ b →
  (∀ u, preserves (keeps a) (rec u)) →
  ∀ i, preserves (keeps a) (inject_fields rec (RV t (Ref b) ro) n i fs).
Proof.
  intros Hne Hrec. induction fs as [|tf fs IH]; intros i; simpl.
  - apply (preserves_ret _ (keeps_refl a)).
  - apply (preserves_bind _ (keeps_trans a)); [| intros _; apply IH].
    unfold inject_field. destruct (_ && _).
    + apply (preserves_bind _ (keeps_trans a)); [apply Hrec |].
      intros x. by apply Field_Set_keeps.
    + apply (preserves_ret _ (keeps_refl a)).
Qed.

(** [inject] on the pointer that [reflect.New] returned for a struct. *)
Lemma inject_with_new (rec : type → M rvalue) (k : nat) (s : string) (b : loc)
    (ro : bool) (w : world) :
  inject_with rec (S k) (RV (TPtr (TStruct s)) (Imm (VPtr b)) ro) w
  = inject_fields rec (RV (TStruct s) (Ref b) ro) (length (Fields s)) 0
      (Fields s) w.
Proof. unfold inject_with, bind. simpl. by destruct k. Qed.

Section keeps.
Variable a : loc.
Hypothesis providers_keep : ∀ p c, preserves (keeps a) (penv p c).

Lemma invoke_keeps (p : pid) (c : cid) : preserves (keeps a) (invoke p c).
Proof using providers_keep.
  intros w w'. unfold invoke.
  destruct (penv p c w) as [v w1 | w1 |] eqn:E; intros [= <-];
    (eapply keeps_trans;
     [ apply (providers_keep p c w w1); by rewrite E
     | by apply keeps_heap ]).
Qed.

Lemma build_keeps (fuel : nat) :
  ∀ (c : cid) (t : type), preserves (keeps a) (build fuel c t).
Proof using providers_keep.
  induction fuel as [|fuel IH]; intros c t w w'; [intros [=] |].
  simpl. destruct (values (cont w c) !! t) as [[vt | p [] | v] |] eqn:Hb.
  - apply IH.
  - simpl. unfold bind.
    destruct (invoke p c w) as [v w1 | w1 |] eqn:E; intros [= <-].
    + eapply keeps_trans; [apply (invoke_keeps p c); by rewrite E |].
      by apply keeps_heap.
    + apply (invoke_keeps p c). by rewrite E.
  - simpl. apply invoke_keeps.
  - intros [= <-]. apply keeps_refl.
  - destruct (parent (cont w c)) as [q|]; [apply IH |].
    unfold build_fallback.
    assert (HNE : ∀ t', preserves (keeps a) (let* r := New t' in Elem r)).
    { intros t'. apply (preserves_bind _ (keeps_trans a)); [apply New_keeps |].
      intros r. apply unchanged_keeps, Elem_unchanged. }
    destruct (bool_decide _).
    { apply (preserves_bind _ (keeps_trans a)); [apply IH |].
      intros v. apply unchanged_keeps, Elem_unchanged. }
    destruct t as [ | | | s | | e | | | | | ]; try apply HNE.
    + (* a new struct: its variable is not [a] when [a] exists *)
      intros Hf x Hx.
      assert (Hlt : a < length (heap w)) by by eapply lookup_lt_Some.
      revert x Hx. change (keeps a w w').
      apply final_bind in Hf as [Hf | (r & w1 & Hn & Hf)]; [discriminate |].
      injection Hn as <- <-.
      eapply (keeps_trans _ _ (set_heap (heap w ++ [VZero]) w));
        [apply (keeps_alloc a VZero w) |].
      destruct fuel as [|k];
        [apply final_bind in Hf as [Hf | (? & ? & Hf & _)]; discriminate |].
      pose proof (inject_fields_keeps a (length (heap w)) (build (S k) c)
                    (TStruct s) false (length (Fields s)) (Fields s)
                    ltac:(lia) (IH c) 0) as HK.
      apply final_bind in Hf as [Hf | ([] & w2 & Hi & Hf)].
      * rewrite inject_with_new in Hf. apply HK. rewrite Hf. reflexivity.
      * rewrite inject_with_new in Hi.
        eapply keeps_trans; [apply HK; rewrite Hi; reflexivity |].
        exact (unchanged_keeps a _ (Elem_unchanged _) w2 w' Hf).
    + apply (preserves_bind _ (keeps_trans a)); [apply IH |].
      intros v. destruct (CanAddr v); [apply (preserves_ret _ (keeps_refl a)) |].
      apply HNE.
    + apply MakeSlice_keeps.
    + apply MakeMap_keeps.
    + apply MakeChan_keeps.
Qed.

End keeps.

(** *** Field injection *)

Lemma get_set_field_ne (n i j : nat) (x v : value) :
  i ≠ j → get_field n j (set_field n i x v) = get_field n j v.
Proof.
  intros Hne. unfold get_field, set_field. simpl.
  by rewrite list_lookup_insert_ne.
Qed.

Lemma get_set_field_eq (n i : nat) (x v : value) :
  i < length (struct_fields n v) → get_field n i (set_field n i x v) = x.
Proof.
  intros Hlt. unfold get_field, set_field. simpl.
  by rewrite list_lookup_insert_eq.
Qed.

Lemma length_set_field (n i : nat) (x v : value) :
  length (struct_fields n (set_field n i x v)) = length (struct_fields n v).
Proof. unfold set_field. simpl. apply length_insert. Qed.

Lemma length_struct_fields_zero (n : nat) : length (struct_fields n VZero) = n.
Proof. simpl. apply length_replicate. Qed.

Section inject_struct.
Variable rec : type → M rvalue.
Variable a : loc.
Variable S_ : type.
Variable ro : bool.
Variable n : nat.
Let v : rvalue := RV S_ (Ref a) ro.

(** One round of the field loop of [inject] on the struct variable [a]:
    whatever the outcome, no field but [i] changes, and field [i] only
    if it is injectable. *)
Lemma inject_field_effect (i : nat) (tf : field) (w w1 : world) :
  (injectable v tf = true → preserves (keeps a) (rec (f_type tf))) →
  is_Some (heap w !! a) →
  final (inject_field rec v n i tf w) = Some w1 →
  is_Some (heap w1 !! a)
  ∧ length (struct_fields n (load w1 a)) = length (struct_fields n (load w a))
  ∧ (∀ j, j ≠ i → get_field n j (load w1 a) = get_field n j (load w a))
  ∧ (injectable v tf = false → w1 = w).
Proof.
  intros Hrec Ha. unfold inject_field.
  replace (Field_CanSet v tf && _) with (injectable v tf) by reflexivity.
  destruct (injectable v tf) eqn:Hinj.
  2: { intros [= <-]. repeat split; done. }
  specialize (Hrec eq_refl). intros Hf.
  assert (Hstep : ∀ w0, keeps a w w0 →
            is_Some (heap w0 !! a)
            ∧ length (struct_fields n (load w0 a)) = length (struct_fields n (load w a))
            ∧ (∀ j, j ≠ i → get_field n j (load w0 a) = get_field n j (load w a))).
  { intros w0 Hk. destruct (keeps_load _ _ _ Hk Ha) as [-> Hs]. done. }
  apply final_bind in Hf as [Hf | (x & w0 & Hx & Hf)].
  - destruct (Hstep w1) as (? & ? & ?); [apply Hrec; by rewrite Hf |]. done.
  - destruct (Hstep w0) as (Hs0 & Hl0 & Hg0); [apply Hrec; by rewrite Hx |].
    unfold Field_Set, v in Hf.
    destruct x as [|xt st []]; try (injection Hf as <-; done).
    destruct (negb _); injection Hf as <-; [done |].
    rewrite load_store by done. split; [by apply store_is_Some |].
    split; [by rewrite length_set_field |]. split; [| done].
    intros j Hj. rewrite get_set_field_ne by done. by apply Hg0.
Qed.

(** When the round returns on an injectable field, the field holds the
    value resolved for its type. *)
Lemma inject_field_Ok (i : nat) (tf : field) (w w1 : world) :
  preserves (keeps a) (rec (f_type tf)) →
  is_Some (heap w !! a) →
  i < length (struct_fields n (load w a)) →
  injectable v tf = true →
  inject_field rec v n i tf w = Ok tt w1 →
  ∃ x w0, rec (f_type tf) w = Ok x w0
          ∧ settable_to x (f_type tf)
          ∧ get_field n i (load w1 a) = stored_from w0 (f_type tf) x.
Proof.
  intros Hrec Ha Hi Hinj. unfold inject_field.
  replace (Field_CanSet v tf && _) with (injectable v tf) by reflexivity.
  rewrite Hinj. intros Hf.
  apply bind_Ok in Hf as (x & w0 & Hx & Hf).
  exists x, w0. split; [exact Hx |].
  assert (Hk : keeps a w w0) by (apply Hrec; by rewrite Hx).
  destruct (keeps_load _ _ _ Hk Ha) as [Hl Hs].
  unfold Field_Set, v in Hf.
  destruct x as [|xt st []]; try discriminate.
  destruct (AssignableTo xt (f_type tf)) eqn:Has; simpl in Hf; [| discriminate].
  injection Hf as <-. split; [done |].
  rewrite load_store by done. rewrite get_set_field_eq; [done |]. by rewrite Hl.
Qed.

(** The whole loop, from field [i] on: the fields outside the injectable
    ones keep their values, whatever the outcome. *)
Lemma inject_fields_frame (fs : list field) :
  ∀ (i : nat) (w w' : world),
    (∀ tf, tf ∈ fs → injectable v tf = true →
           preserves (keeps a) (rec (f_type tf))) →
    is_Some (heap w !! a) →
    final (inject_fields rec v n i fs w) = Some w' →
    is_Some (heap w' !! a)
    ∧ length (struct_fields n (load w' a)) = length (struct_fields n (load w a))
    ∧ ∀ j, (i ≤ j → ∀ tf, fs !! (j - i) = Some tf → injectable v tf = false) →
           get_field n j (load w' a) = get_field n j (load w a).
Proof.
  induction fs as [|tf fs IH]; intros i w w' Hrec Ha Hf.
  - injection Hf as <-. done.
  - cbn [inject_fields] in Hf.
    assert (Hhead : injectable v tf = true → preserves (keeps a) (rec (f_type tf)))
      by (apply Hrec, list_elem_of_here).
    assert (Htail : ∀ tf', tf' ∈ fs → injectable v tf' = true →
                           preserves (keeps a) (rec (f_type tf')))
      by (intros tf' Hin; by apply Hrec, list_elem_of_further).
    apply final_bind in Hf as [Hf | ([] & w1 & H1 & Hf)].
    + destruct (inject_field_effect i tf w w' Hhead Ha) as (Hs & Hl & Hg & Hno);
        [by rewrite Hf |].
      split; [done |]. split; [done |]. intros j Hj.
      destruct (decide (j = i)) as [-> | Hne]; [| by apply Hg].
      rewrite (Hno (Hj (le_n i) tf ltac:(by rewrite Nat.sub_diag))). done.
    + destruct (inject_field_effect i tf w w1 Hhead Ha) as (Hs & Hl & Hg & Hno);
        [by rewrite H1 |].
      destruct (IH (S i) w1 w' Htail Hs Hf) as (Hs' & Hl' & Hg').
      split; [done |]. split; [congruence |]. intros j Hj.
      rewrite Hg'.
      * destruct (decide (j = i)) as [-> | Hne]; [| by apply Hg].
        rewrite (Hno (Hj (le_n i) tf ltac:(by rewrite Nat.sub_diag))). done.
      * intros Hle tf' Hlk. apply (Hj ltac:(lia)).
        replace (j - i) with (S (j - S i)) by lia. done.
Qed.

(** When the loop returns, each injectable field holds the value that
    was resolved for its type in its round. *)
(** The loop over a list of fields is the loop over its first part,
    then the loop over the rest. *)
Lemma inject_fields_app (fs1 fs2 : list field) :
  ∀ (i : nat) (w : world),
    inject_fields rec v n i (fs1 ++ fs2) w
    = (inject_fields rec v n i fs1;;;
       inject_fields rec v n (i + length fs1) fs2) w.
Proof.
  induction fs1 as [|tf fs1 IH]; intros i w.
  - simpl. by rewrite Nat.add_0_r.
  - cbn [app inject_fields length]. unfold bind.
    destruct (inject_field rec v n i tf w) as [[] w1 | w1 |]; try reflexivity.
    rewrite IH. unfold bind.
    by replace (S i + length fs1) with (i + S (length fs1)) by lia.
Qed.

(** The field [i] of the struct, when injectable, holds after the loop
    what was stored from the Value resolved for its type in the state
    in which the loop reached it. *)
Lemma inject_fields_set (fs : list field) (i : nat) (tf : field) (w w' : world) :
  (∀ tf, tf ∈ fs → injectable v tf = true →
         preserves (keeps a) (rec (f_type tf))) →
  is_Some (heap w !! a) →
  length fs ≤ length (struct_fields n (load w a)) →
  inject_fields rec v n 0 fs w = Ok tt w' →
  fs !! i = Some tf →
  injectable v tf = true →
  ∃ wi x w1,
    inject_fields rec v n 0 (take i fs) w = Ok tt wi
    ∧ rec (f_type tf) wi = Ok x w1
    ∧ settable_to x (f_type tf)
    ∧ get_field n i (load w' a) = stored_from w1 (f_type tf) x.
Proof.
  intros Hrec Ha Hlen Hrun Hlk Hinj.
  assert (Hi : i < length fs) by (by eapply lookup_lt_Some).
  rewrite <- (take_drop_middle fs i tf Hlk), inject_fields_app in Hrun.
  rewrite length_take_le in Hrun by lia.
  apply bind_Ok in Hrun as ([] & wi & Hpre & Hrun).
  cbn [inject_fields] in Hrun. simpl in Hrun.
  apply bind_Ok in Hrun as ([] & w2 & Hset & Hpost).
  destruct (inject_fields_frame (take i fs) 0 w wi) as (Hai & Hleni & _).
  { intros tf' Hin. apply Hrec. by eapply subseteq_take. }
  { exact Ha. }
  { by rewrite Hpre. }
  assert (Hhead : preserves (keeps a) (rec (f_type tf)))
    by (apply Hrec; [by eapply list_elem_of_lookup_2 | done]).
  destruct (inject_field_Ok i tf wi w2 Hhead Hai ltac:(lia) Hinj Hset)
    as (x & w1 & Hx & Hok & Hget).
  destruct (inject_field_effect i tf wi w2 (λ _, Hhead) Hai) as (Ha2 & _);
    [by rewrite Hset |].
  destruct (inject_fields_frame (drop (S i) fs) (S i) w2 w') as (_ & _ & Hfr).
  { intros tf' Hin. apply Hrec. by eapply subseteq_drop. }
  { exact Ha2. }
  { by rewrite Hpost. }
  exists wi, x, w1. split; [done |]. split; [done |]. split; [done |].
  rewrite Hfr; [done | intros ?; lia].
Qed.

End inject_struct.

Lemma inject_at_struct (fuel : nat) (c : cid) (v : rvalue) (name : string)
    (st : storage) (ro : bool) (w : world) :
  deref fuel v w = Ok (RV (TStruct name) st ro) w →
  inject fuel c v w =
    inject_fields (build fuel c) (RV (TStruct name) st ro)
      (length (Fields name)) 0 (Fields name) w.
Proof. intros Hd. unfold inject, inject_with, bind. by rewrite Hd. Qed.

(** C8. Let [inject] be called on a Value that leads, through any number
    of pointers, to the struct variable [a], and let no provider write
    to that variable. Whatever the outcome, every field that is not
    settable (unexported, or the Value read-only) or has no [inject] tag
    keeps the value it had. When [inject] returns, every field that is
    settable and tagged, embedded or not, holds the value resolved for
    the field's type: the one that [build] returned for that type in
    the state [wi] that the loop over the fields before it had reached,
    as it was stored from the state [w1] that this resolution left. On
    a Value that leads to something other than a struct, and on a
    struct that is not addressable, [inject] does nothing. *)
Theorem C8_field_injection_selectivity (fuel : nat) (c : cid) (v : rvalue)
    (name : string) (a : loc) (ro : bool) (w w' : world) :
  let target := RV (TStruct name) (Ref a) ro in
  let fs := Fields name in
  let n := length fs in
  (∀ p c0, preserves (keeps a) (penv p c0)) →
  deref fuel v w = Ok target w →
  is_Some (heap w !! a) →
  length (struct_fields n (load w a)) = n →
  final (inject fuel c v w) = Some w' →
  (∀ tf, injectable target tf =
           negb ro && f_exported tf
           && negb (bool_decide (Tag_Get (f_tag tf) injectTag = "")))
  ∧ (∀ i tf, fs !! i = Some tf → injectable target tf = false →
       get_field n i (load w' a) = get_field n i (load w a))
  ∧ (inject fuel c v w = Ok tt w' →
     ∀ i tf, fs !! i = Some tf → injectable target tf = true →
       ∃ wi x w1,
         inject_fields (build fuel c) target n 0 (take i fs) w = Ok tt wi
         ∧ build fuel c (f_type tf) wi = Ok x w1
         ∧ settable_to x (f_type tf)
         ∧ get_field n i (load w' a) = stored_from w1 (f_type tf) x)
  ∧ (∀ v0 w0 v1, deref fuel v0 w0 = Ok v1 w0 →
       (∀ nm st ro1, v1 ≠ RV (TStruct nm) st ro1) →
       inject fuel c v0 w0 = Ok tt w0)
  ∧ (∀ v0 w0 nm s ro1,
       deref fuel v0 w0 = Ok (RV (TStruct nm) (Imm s) ro1) w0 →
       inject fuel c v0 w0 = Ok tt w0).
Proof.
  intros target fs n Hp Hd Ha Hlen Hf.
  assert (Hrec : ∀ tf, tf ∈ fs → injectable target tf = true →
                       preserves (keeps a) (build fuel c (f_type tf)))
    by (intros tf _ _; by apply build_keeps).
  rewrite (inject_at_struct _ _ _ _ _ _ _ Hd) in Hf |- *.
  split; [reflexivity |]. split; [| split; [| split]].
  - intros i tf Hlk Hinj.
    destruct (inject_fields_frame (build fuel c) a (TStruct name) ro n fs 0 w w'
                Hrec Ha Hf) as (_ & _ & Hfr).
    apply Hfr. intros _ tf'. rewrite Nat.sub_0_r, Hlk. by intros [= <-].
  - intros HOk i tf Hlk Hinj.
    apply (inject_fields_set (build fuel c) a (TStruct name) ro n fs i tf w w'
             Hrec Ha ltac:(fold n; lia) HOk Hlk Hinj).
  - intros v0 w0 v1 Hd0 Hns. unfold inject, inject_with, bind. rewrite Hd0.
    destruct v1 as [|[] st1 ro1]; try reflexivity. by destruct (Hns name0 st1 ro1).
  - intros v0 w0 nm s ro1 Hd0. rewrite (inject_at_struct _ _ _ _ _ _ _ Hd0).
    by apply inject_fields_none.
Qed.

(** *** Building from scratch *)








Lemma keeps_length (w w' : world) :
  (∀ a, keeps a w w') → length (heap w) ≤ length (heap w').
Proof.
  intros Hk. destruct (heap w) as [|x l] eqn:E using rev_ind; [simpl; lia |].
  rewrite length_app. simpl.
  assert (Hl : heap w !! length l = Some x).
  { rewrite E. by apply list_lookup_middle. }
  apply Hk, lookup_lt_Some in Hl. lia.
Qed.

Lemma cont_conts (w w' : world) (c : cid) : conts w' = conts w → cont w' c = cont w c.
Proof. unfold cont. by intros ->. Qed.


Section inject_new.
Variable rec : type → M rvalue.
Variable c : cid.
Variable K : container.
Variable b : loc.
Variable S_ : type.
Variable n : nat.
Let target : rvalue := RV S_ (Ref b) false.



End inject_new.

Lemma New_Elem (t : type) (w : world) :
  (let* r := New t in Elem r) w
  = Ok (RV t (Ref (length (heap w))) false) (set_heap (heap w ++ [VZero]) w).
Proof. reflexivity. Qed.

Lemma lookup_alloc (y : value) (w : world) :
  heap (set_heap (heap w ++ [y]) w) !! length (heap w) = Some y.
Proof. simpl. by apply list_lookup_middle. Qed.

Lemma load_alloc (y : value) (w : world) :
  load (set_heap (heap w ++ [y]) w) (length (heap w)) = y.
Proof. unfold load. by rewrite lookup_alloc. Qed.

Lemma get_field_zero (n i : nat) : get_field n i VZero = VZero.
Proof.
  unfold get_field. simpl.
  destruct (replicate n VZero !! i) as [x|] eqn:E; [| reflexivity].
  apply lookup_replicate in E as [-> _]. reflexivity.
Qed.




(** *** Fuel *)









(** *** InterfaceOf *)

Lemma strip_pointers_to (n : nat) (t : type) :
  strip_pointers (pointers_to n t) = strip_pointers t.
Proof. induction n as [|n IH]; [reflexivity | exact IH]. Qed.

Lemma strip_pointers_spec (t : type) :
  ∃ n, t = pointers_to n (strip_pointers t) ∧ ∀ e, strip_pointers t ≠ TPtr e.
Proof.
  induction t as [ | | | s | s | e IH | e _ | len e _ | k e _ _ | d e _
                 | ins outs vr _ _ ]
    using type_ind_nested; try (by exists 0).
  destruct IH as (n & Hn & Hne). exists (S n). simpl. split; [| exact Hne].
  by rewrite <- Hn.
Qed.

(** X1. [InterfaceOf] looks at the type of its argument only: it goes
    through the pointers, however many, and returns the type reached
    when that is an interface type, as for a nil pointer to [Bar]; it
    panics otherwise, as for a pointer to a struct, and for nil. What it
    returns is always an interface type, and the state is never
    changed. *)
Theorem X1_InterfaceOf_strips_pointers (iface : option dyn) (w : world) :
  (∀ n name v,
     InterfaceOf (Some (Dyn (pointers_to n (TInterface name)) v)) w
     = Ok (TInterface name) w)
  ∧ (∀ t w', InterfaceOf iface w = Ok t w' →
       w' = w ∧ Kind t = KInterface
       ∧ ∃ d n, iface = Some d ∧ TypeOf d = pointers_to n t)
  ∧ ((∀ d n name, iface = Some d → TypeOf d ≠ pointers_to n (TInterface name)) →
     InterfaceOf iface w = Panic w)
  ∧ InterfaceOf None w = Panic w.
Proof.
  split; [| split; [| split]].
  - intros n name v. unfold InterfaceOf, TypeOf. simpl dtype.
    by rewrite strip_pointers_to.
  - intros t w'. destruct iface as [d|]; [| discriminate]. unfold InterfaceOf.
    destruct (bool_decide (Kind (strip_pointers (TypeOf d)) = KInterface))
      eqn:Hk; simpl; [| discriminate].
    intros [= <- <-]. apply bool_decide_eq_true in Hk.
    split; [done |]. split; [done |].
    destruct (strip_pointers_spec (TypeOf d)) as (n & Hn & _). by exists d, n.
  - intros Hno. destruct iface as [d|]; [| reflexivity]. unfold InterfaceOf.
    destruct (bool_decide (Kind (strip_pointers (TypeOf d)) = KInterface))
      eqn:Hk; simpl; [| reflexivity].
    apply bool_decide_eq_true in Hk.
    destruct (strip_pointers_spec (TypeOf d)) as (n & Hn & _).
    destruct (strip_pointers (TypeOf d)) as [ | | | | name | | | | | | ];
      try discriminate.
    by destruct (Hno d n name).
  - reflexivity.
Qed.

(** *** The map of a container *)

Lemma world_eq (w w' : world) :
  conts w = conts w' → heap w = heap w' → calls w = calls w' → w = w'.
Proof. destruct w, w'; simpl; congruence. Qed.

Lemma set_value_set_value (c : cid) (t : type) (b1 b2 : binding) (w : world) :
  set_value c t b2 (set_value c t b1 w) = set_value c t b2 w.
Proof.
  unfold set_value. rewrite cont_set_cont_eq. simpl.
  apply world_eq; try reflexivity. simpl.
  by rewrite insert_insert_eq, insert_insert_eq.
Qed.

Lemma set_value_commute (c c' : cid) (t t' : type) (b b' : binding) (w : world) :
  (c, t) ≠ (c', t') →
  set_value c t b (set_value c' t' b' w) = set_value c' t' b' (set_value c t b w).
Proof.
  intros Hne. unfold set_value. apply world_eq; try reflexivity. simpl.
  destruct (decide (c = c')) as [<- | Hc].
  - rewrite !cont_set_cont_eq. simpl. rewrite !insert_insert_eq.
    rewrite (insert_insert_ne _ t t'); [done | congruence].
  - rewrite !cont_set_cont_ne by done. by rewrite insert_insert_ne.
Qed.

Lemma values_Unregister (c c' : cid) (t u : type) (w : world) :
  values (cont (Unregister c t w) c') !! u =
    if decide (c = c' ∧ t = u) then None else values (cont w c') !! u.
Proof.
  unfold Unregister. rewrite cont_set_cont.
  destruct (decide (c = c')) as [<- | Hc]; simpl.
  - destruct (decide (t = u)) as [<- | Ht].
    + rewrite lookup_delete_eq. by rewrite decide_True.
    + rewrite lookup_delete_ne by done. rewrite decide_False; [done | by intros [? ?]].
  - rewrite decide_False; [done | by intros [? ?]].
Qed.

Lemma parent_Unregister (c c' : cid) (t : type) (w : world) :
  parent (cont (Unregister c t w) c') = parent (cont w c').
Proof.
  unfold Unregister. rewrite cont_set_cont.
  by destruct (decide (c = c')) as [<- | Hc].
Qed.

Lemma container_eq (k k' : container) :
  parent k = parent k' → values k = values k' → k = k'.
Proof. destruct k, k'; simpl; congruence. Qed.

Lemma Unregister_absent (c c' : cid) (t : type) (w : world) :
  values (cont w c) !! t = None → cont (Unregister c t w) c' = cont w c'.
Proof.
  intros Hn. apply container_eq; [apply parent_Unregister |].
  apply map_eq. intros u. rewrite values_Unregister.
  destruct (decide (c = c' ∧ t = u)) as [[<- <-] |]; done.
Qed.

Lemma Unregister_set_value (c c' : cid) (t : type) (b : binding) (w : world) :
  values (cont w c) !! t = None →
  cont (Unregister c t (set_value c t b w)) c' = cont w c'.
Proof.
  intros Hn. apply container_eq.
  - by rewrite parent_Unregister, parent_set_value.
  - apply map_eq. intros u. rewrite values_Unregister.
    destruct (decide (c = c' ∧ t = u)) as [[<- <-] | Hne]; [done |].
    rewrite values_set_value. by rewrite decide_False.
Qed.

(** X2. [Unregister] removes the binding of one type in one container
    and nothing else: the other bindings, the parents and the memory
    stay. On a type that is not bound it does nothing, and after a
    registration of a type that was not bound it gives back the
    containers as they were. From then on the type is resolved as an
    unbound type: when there is a parent, by the parent. *)
Theorem X2_Unregister_removes_one_binding (c : cid) (t : type) (w : world) :
  let w' := Unregister c t w in
  HasRegistered c t w' = false
  ∧ (∀ c' u, (c', u) ≠ (c, t) →
       values (cont w' c') !! u = values (cont w c') !! u)
  ∧ (∀ c', parent (cont w' c') = parent (cont w c'))
  ∧ heap w' = heap w
  ∧ calls w' = calls w
  ∧ (HasRegistered c t w = false →
     (∀ c', cont w' c' = cont w c')
     ∧ (∀ val c', TypeOf val = t →
          cont (Unregister c t (Register c val w)) c' = cont w c')
     ∧ (∀ p shared c',
          cont (Unregister c t (RegisterProvider c p t shared w)) c' = cont w c'))
  ∧ (∀ fuel p, parent (cont w c) = Some p →
       build (S fuel) c t w' = build fuel p t w').
Proof.
  cbv zeta. split; [| split; [| split; [| split; [| split; [| split]]]]].
  - apply HasRegistered_false. rewrite values_Unregister. by rewrite decide_True.
  - intros c' u Hne. rewrite values_Unregister.
    rewrite decide_False; [done |]. intros [<- <-]. by apply Hne.
  - intros c'. apply parent_Unregister.
  - reflexivity.
  - reflexivity.
  - intros Hn. apply HasRegistered_false in Hn. split; [| split].
    + intros c'. by apply Unregister_absent.
    + intros val c' <-. by apply Unregister_set_value.
    + intros p shared c'. by apply Unregister_set_value.
  - intros fuel p Hp. apply build_parent.
    + rewrite values_Unregister. by rewrite decide_True.
    + by rewrite parent_Unregister.
Qed.

(** X3. A registration replaces whatever the type was bound to: of two
    registrations of one type on one container, by [Register] or
    [RegisterProvider], the state is the one the second alone gives.
    A provider replaced by an instance is never called: the type
    resolves to the instance and the log of calls is left alone. *)
Theorem X3_latest_registration_wins (fuel : nat) (c : cid) (val : dyn) (p : pid)
    (shared : bool) (w : world) :
  let t := TypeOf val in
  Register c val (RegisterProvider c p t shared w) = Register c val w
  ∧ RegisterProvider c p t shared (Register c val w)
    = RegisterProvider c p t shared w
  ∧ (∀ val', TypeOf val' = t →
       Register c val (Register c val' w) = Register c val w)
  ∧ (∀ q shared', RegisterProvider c p t shared (RegisterProvider c q t shared' w)
                  = RegisterProvider c p t shared w)
  ∧ build (S fuel) c t (Register c val (RegisterProvider c p t shared w))
    = Ok (ValueOf val) (Register c val w)
  ∧ calls (Register c val w) = calls w.
Proof.
  cbv zeta. unfold Register, RegisterProvider.
  split; [apply set_value_set_value |].
  split; [apply set_value_set_value |].
  split; [intros val' ->; apply set_value_set_value |].
  split; [intros q shared'; apply set_value_set_value |].
  split; [| reflexivity].
  rewrite set_value_set_value. apply build_instance, values_set_value_eq.
Qed.

(** X4. Registrations under different types, or on different
    containers, do not depend on their order. *)
Theorem X4_registrations_commute (c c' : cid) (val val' : dyn) (p : pid)
    (t : type) (shared : bool) (w : world) :
  (c, TypeOf val) ≠ (c', TypeOf val') →
  (c, TypeOf val) ≠ (c', t) →
  Register c val (Register c' val' w) = Register c' val' (Register c val w)
  ∧ Register c val (RegisterProvider c' p t shared w)
    = RegisterProvider c' p t shared (Register c val w).
Proof.
  intros H1 H2. unfold Register, RegisterProvider.
  split; by apply set_value_commute.
Qed.

(** *** RegisterAs *)

(** X5. [RegisterAs] with a value that is not a type descriptor and
    whose type is convertible to [t] binds the value under [t], and
    under [t] only: the value's own type is bound or not as before, as
    TestRegisterInterface checks. The type [t] then resolves to the
    value, and [Make] returns it with its own dynamic type. With the
    value's own type for [t] it is [Register]. *)
Theorem X5_RegisterAs_binds_the_value (fuel : nat) (c : cid) (val : dyn)
    (t : type) (w : world) :
  as_Type val = None →
  ConvertibleTo (TypeOf val) t = true →
  ∃ w', RegisterAs c val t w = Ok tt w'
    ∧ values (cont w' c) !! t = Some (BValue (ValueOf val))
    ∧ HasRegistered c t w' = true
    ∧ (∀ c' u, (c', u) ≠ (c, t) →
         values (cont w' c') !! u = values (cont w c') !! u)
    ∧ (TypeOf val ≠ t →
       HasRegistered c (TypeOf val) w' = HasRegistered c (TypeOf val) w)
    ∧ (∀ c', parent (cont w' c') = parent (cont w c'))
    ∧ heap w' = heap w
    ∧ calls w' = calls w
    ∧ (t = TypeOf val → w' = Register c val w)
    ∧ build (S fuel) c t w' = Ok (ValueOf val) w'
    ∧ (Kind (TypeOf val) ≠ KInterface →
       Make (S fuel) c t w' = Ok (Some val) w').
Proof.
  intros Hty Hconv. exists (set_value c t (BValue (ValueOf val)) w).
  assert (Hb : values (cont (set_value c t (BValue (ValueOf val)) w) c) !! t
               = Some (BValue (ValueOf val))) by apply values_set_value_eq.
  split. { unfold RegisterAs. rewrite Hty, Hconv. reflexivity. }
  split; [exact Hb |].
  split. { apply HasRegistered_spec. rewrite Hb. by eexists. }
  split. { intros c' u Hne. rewrite values_set_value.
           rewrite decide_False; [done |]. intros [<- <-]. by apply Hne. }
  split. { intros Hne. unfold HasRegistered. rewrite values_set_value.
           rewrite decide_False; [done |]. intros [_ Heq]. by apply Hne. }
  split; [intros c'; apply parent_set_value |].
  split; [reflexivity |]. split; [reflexivity |].
  split; [by intros -> |].
  split; [by apply build_instance |].
  intros Hk. unfold Make, bind. rewrite (build_instance _ _ _ _ _ Hb).
  by apply Interface_ValueOf.
Qed.

(** X6. [RegisterAs] with a type descriptor [vt] maps [t] to the type
    [vt]: it panics, changing nothing, when [vt] is not convertible to
    [t]; otherwise [t] is bound, and resolving [t] is resolving [vt] on
    the same container, so that [Make(t)] returns what [Make(vt)]
    returns. *)
Theorem X6_RegisterAs_type_makes_an_alias (c : cid) (val : dyn) (vt t : type)
    (w : world) :
  as_Type val = Some vt →
  (ConvertibleTo vt t = false → RegisterAs c val t w = Panic w)
  ∧ (ConvertibleTo vt t = true →
     ∃ w', RegisterAs c val t w = Ok tt w'
       ∧ values (cont w' c) !! t = Some (BType vt)
       ∧ HasRegistered c t w' = true
       ∧ (∀ c' u, (c', u) ≠ (c, t) →
            values (cont w' c') !! u = values (cont w c') !! u)
       ∧ (∀ c', parent (cont w' c') = parent (cont w c'))
       ∧ heap w' = heap w
       ∧ (∀ fuel, build (S fuel) c t w' = build fuel c vt w')
       ∧ (∀ fuel, Make (S fuel) c t w' = Make fuel c vt w')
       ∧ (∀ fuel x, vt ≠ t → values (cont w c) !! vt = Some (BValue x) →
            build (S (S fuel)) c t w' = Ok x w')).
Proof.
  intros Hty. split.
  - intros Hconv. unfold RegisterAs. rewrite Hty, Hconv. reflexivity.
  - intros Hconv. exists (set_value c t (BType vt) w).
    assert (Hb : values (cont (set_value c t (BType vt) w) c) !! t
                 = Some (BType vt)) by apply values_set_value_eq.
    split. { unfold RegisterAs. rewrite Hty, Hconv. reflexivity. }
    split; [exact Hb |].
    split. { apply HasRegistered_spec. rewrite Hb. by eexists. }
    split. { intros c' u Hne. rewrite values_set_value.
             rewrite decide_False; [done |]. intros [<- <-]. by apply Hne. }
    split; [intros c'; apply parent_set_value |].
    split; [reflexivity |].
    split; [intros fuel; by apply build_alias |].
    split. { intros fuel. unfold Make, bind. by rewrite (build_alias _ _ _ _ _ Hb). }
    intros fuel x Hne Hx. rewrite (build_alias _ _ _ _ _ Hb).
    apply build_instance. rewrite values_set_value.
    rewrite decide_False; [done |]. intros [_ Heq]. by apply Hne.
Qed.

(** *** Parents *)

(** X7. A type mapped to a type in the parent is resolved by the parent
    from there on: the target type is looked up in the parent's map,
    whatever the child itself binds it to. *)
Theorem X7_alias_of_the_parent_stays_in_the_parent (fuel : nat) (child p : cid)
    (t vt : type) (w : world) :
  values (cont w child) !! t = None →
  parent (cont w child) = Some p →
  values (cont w p) !! t = Some (BType vt) →
  build (S (S fuel)) child t w = build fuel p vt w
  ∧ (∀ y, values (cont w p) !! vt = Some (BValue y) →
          build (S (S (S fuel))) child t w = Ok y w).
Proof.
  intros Hn Hp Ha. split.
  - rewrite (build_parent _ _ _ _ _ Hn Hp). by apply build_alias.
  - intros y Hy. rewrite (build_parent _ _ _ _ _ Hn Hp).
    rewrite (build_alias _ _ _ _ _ Ha). by apply build_instance.
Qed.

Lemma build_hop (fuel : nat) (c c' : cid) (t t' : type) (w : world) :
  hop w c t = Some (c', t') → build (S fuel) c t w = build fuel c' t' w.
Proof.
  unfold hop. simpl.
  destruct (values (cont w c) !! t) as [[vt | p sh | v] |]; try discriminate.
  - by intros [= <- <-].
  - destruct (parent (cont w c)) as [p |]; [| discriminate]. by intros [= <- <-].
Qed.

(** X8. Nothing in [build] detects a cycle: when resolution only ever
    passes from a type to the type it is mapped to and from a container
    to its parent, and from a set of starting points never leaves that
    set, it does not end, whatever the depth allowed; neither does
    [Make]. A type mapped to itself and a container that is its own
    parent are such cycles. *)
Theorem X8_resolution_in_a_cycle_never_ends (P : cid → type → Prop) (w : world) :
  (∀ c t, P c t → ∃ c' t', hop w c t = Some (c', t') ∧ P c' t') →
  ∀ fuel c t, P c t →
    build fuel c t w = Unfinished ∧ Make fuel c t w = Unfinished.
Proof.
  intros Hcl fuel.
  assert (Hb : ∀ c t, P c t → build fuel c t w = Unfinished).
  { induction fuel as [| fuel IH]; intros c t HP; [reflexivity |].
    destruct (Hcl c t HP) as (c' & t' & Hh & HP').
    rewrite (build_hop _ _ _ _ _ _ Hh). by apply IH. }
  intros c t HP. split; [by apply Hb |].
  unfold Make, bind. by rewrite Hb.
Qed.

Lemma build_ancestor (w : world) (t : type) (c a : cid) (n : nat) :
  ancestor w t c n a → ∀ fuel, build (n + fuel) c t w = build fuel a t w.
Proof.
  induction 1 as [c | c p n a Hn Hp _ IH]; intros fuel; [reflexivity |].
  simpl Nat.add. rewrite (build_parent _ _ _ _ _ Hn Hp). apply IH.
Qed.

(** X9. A type that a container does not bind is resolved by the
    nearest ancestor that binds it, however far up: to the instance
    bound there. When no container up to the root binds it, the root
    builds it: the pointer type is looked up in the root's map and the
    fields are injected by the root, not by the container asked.
    [HasRegistered] does not look at the ancestors. *)
Theorem X9_nearest_ancestor_resolves (fuel n : nat) (c a : cid) (t : type)
    (w : world) :
  ancestor w t c n a →
  build (n + fuel) c t w = build fuel a t w
  ∧ Make (n + fuel) c t w = Make fuel a t w
  ∧ (∀ v, values (cont w a) !! t = Some (BValue v) →
          build (n + S fuel) c t w = Ok v w)
  ∧ (values (cont w a) !! t = None → parent (cont w a) = None →
     build (n + S fuel) c t w
     = build_fallback (build fuel a) (inject_with (build fuel a) fuel) a t w)
  ∧ (0 < n → HasRegistered c t w = false).
Proof.
  intros Ha. split; [by apply build_ancestor |].
  split. { unfold Make, bind. by rewrite (build_ancestor _ _ _ _ _ Ha). }
  split. { intros v Hv. rewrite (build_ancestor _ _ _ _ _ Ha).
           by apply build_instance. }
  split. { intros Hn Hp. rewrite (build_ancestor _ _ _ _ _ Ha).
           by apply build_unbound. }
  intros Hpos. apply HasRegistered_false.
  destruct Ha as [c | c p n a Hn _ _]; [lia | exact Hn].
Qed.

(** *** Providers *)

(** X10. A shared provider found in the parent is called with the
    parent, and what it returns is bound in the parent's map: the
    child's map gets nothing. *)
Theorem X10_shared_provider_of_the_parent (fuel : nat) (child p : cid) (f : pid)
    (T : type) (w w1 : world) (v : rvalue) :
  values (cont w child) !! T = None →
  parent (cont w child) = Some p →
  values (cont w p) !! T = Some (BProvider f true) →
  penv f p w = Ok v w1 →
  ∃ w2, build (S (S fuel)) child T w = Ok v w2
    ∧ values (cont w2 p) !! T = Some (BValue v)
    ∧ (∀ c' u, (c', u) ≠ (p, T) →
         values (cont w2 c') !! u = values (cont w1 c') !! u)
    ∧ (child ≠ p →
       HasRegistered child T w2 = HasRegistered child T w1)
    ∧ calls w2 = calls w ++ [f]
    ∧ heap w2 = heap w1.
Proof.
  intros Hn Hp Hb Hrun.
  exists (set_value p T (BValue v) (set_calls (calls w ++ [f]) w1)).
  split. { rewrite (build_parent _ _ _ _ _ Hn Hp).
           rewrite (build_shared _ _ _ _ _ Hb).
           by rewrite (invoke_Ok _ _ _ _ _ Hrun). }
  split; [apply values_set_value_eq |].
  split. { intros c' u Hne. rewrite values_set_value.
           rewrite decide_False; [done |]. intros [<- <-]. by apply Hne. }
  split. { intros Hne. unfold HasRegistered. rewrite values_set_value.
           rewrite decide_False; [done |]. intros [Heq _]. by apply Hne. }
  split; reflexivity.
Qed.

(** X11. When a provider panics, so do [build] and [Make], in the state
    the provider left, with the call logged: nothing is bound, shared or
    not. When a shared provider returns the zero Value, that is bound
    as the instance: [Make] panics then and every time after, without
    calling the provider again. *)
Theorem X11_failing_provider (fuel : nat) (c : cid) (f : pid) (T : type)
    (shared : bool) (w w1 : world) :
  values (cont w c) !! T = Some (BProvider f shared) →
  (penv f c w = Panic w1 →
   ∃ w', build (S fuel) c T w = Panic w'
     ∧ Make (S fuel) c T w = Panic w'
     ∧ conts w' = conts w1
     ∧ heap w' = heap w1
     ∧ calls w' = calls w ++ [f])
  ∧ (penv f c w = Ok Invalid w1 → shared = true →
     ∃ w', build (S fuel) c T w = Ok Invalid w'
       ∧ Make (S fuel) c T w = Panic w'
       ∧ values (cont w' c) !! T = Some (BValue Invalid)
       ∧ ∀ fuel', Make (S fuel') c T w' = Panic w').
Proof.
  intros Hb. split.
  - intros Hrun. exists (set_calls (calls w ++ [f]) w1).
    assert (Hi : invoke f c w = Panic (set_calls (calls w ++ [f]) w1))
      by (unfold invoke; by rewrite Hrun).
    assert (E : build (S fuel) c T w = Panic (set_calls (calls w ++ [f]) w1)).
    { destruct shared.
      - rewrite (build_shared _ _ _ _ _ Hb). by rewrite Hi.
      - rewrite (build_provider _ _ _ _ _ Hb). exact Hi. }
    split; [exact E |]. split; [unfold Make, bind; by rewrite E |].
    split; [reflexivity |]. split; reflexivity.
  - intros Hrun ->.
    exists (set_value c T (BValue Invalid) (set_calls (calls w ++ [f]) w1)).
    assert (E : build (S fuel) c T w
                = Ok Invalid (set_value c T (BValue Invalid)
                                (set_calls (calls w ++ [f]) w1))).
    { rewrite (build_shared _ _ _ _ _ Hb).
      by rewrite (invoke_Ok _ _ _ _ _ Hrun). }
    split; [exact E |]. split; [unfold Make, bind; by rewrite E |].
    split; [apply values_set_value_eq |].
    intros fuel'. unfold Make, bind.
    rewrite (build_instance fuel' c T Invalid); [reflexivity |].
    apply values_set_value_eq.
Qed.

(** *** The variables that exist *)

Lemma Interface_unchanged (v : rvalue) : preserves unchanged (Interface v).
Proof.
  intros w w'. unfold Interface.
  destruct v as [| t st []]; try (by intros [= <-]).
  destruct t; try (by intros [= <-]).
  destruct (read w st); by intros [= <-].
Qed.

Lemma Call_loop_keeps (a : loc) (rec : type → M rvalue) (pin : list type)
    (k : nat) :
  (∀ t, preserves (keeps a) (rec t)) →
  ∀ i args, preserves (keeps a) (Call_loop rec pin k i args).
Proof.
  intros Hrec. induction k as [|k IH]; intros i args; simpl.
  - apply (preserves_ret _ (keeps_refl a)).
  - destruct (pin !! i) as [ti|]; [| apply (preserves_panic _ (keeps_refl a))].
    apply (preserves_bind _ (keeps_trans a)); [apply Hrec |].
    intros v. apply IH.
Qed.

(** X12. Resolution only adds variables: provided the providers
    overwrite none, every variable that exists when [Make] is called,
    or when [Call] resolves the arguments, holds the same value
    afterwards, whether the call returns or panics, and no variable is
    lost. *)
Theorem X12_resolution_keeps_the_variables (fuel : nat) (c : cid)
    (w w' : world) :
  (∀ a p c0, preserves (keeps a) (penv p c0)) →
  (∃ t, final (Make fuel c t w) = Some w')
  ∨ (∃ pin, final (Call_loop (build fuel c) pin (length pin) 0
                     (replicate (length pin) Invalid) w) = Some w') →
  (∀ a, keeps a w w')
  ∧ length (heap w) ≤ length (heap w').
Proof.
  intros Hp Hrun.
  assert (Hk : ∀ a, keeps a w w').
  { intros a. destruct Hrun as [[t Hf] | [pin Hf]].
    - revert Hf. apply (preserves_bind _ (keeps_trans a)).
      + apply build_keeps. apply Hp.
      + intros v. apply unchanged_keeps, Interface_unchanged.
    - revert Hf. apply Call_loop_keeps. intros t. apply build_keeps, Hp. }
  split; [exact Hk | by apply keeps_length].
Qed.

(** X13. [Inject] on a pointer that leads to a struct variable writes
    that variable only: provided the providers overwrite no other
    variable, every other variable that exists holds the same value
    afterwards. *)
Theorem X13_Inject_writes_its_struct_only (fuel : nat) (c : cid) (val : dyn)
    (name : string) (a b : loc) (ro : bool) (w w' : world) :
  (∀ p c0, preserves (keeps a) (penv p c0)) →
  deref fuel (ValueOf val) w = Ok (RV (TStruct name) (Ref b) ro) w →
  a ≠ b →
  final (Inject fuel c val w) = Some w' →
  keeps a w w'.
Proof.
  intros Hp Hd Hne. unfold Inject. rewrite (inject_at_struct _ _ _ _ _ _ _ Hd).
  apply inject_fields_keeps; [exact Hne |].
  intros u. by apply build_keeps.
Qed.

(** X14. [Inject] does nothing on a value that is not a pointer, a
    struct passed by value included, and nothing on a nil pointer: it
    returns, no type is resolved, and the state is the same. *)
Theorem X14_Inject_without_a_variable_does_nothing (fuel : nat) (c : cid)
    (val : dyn) (w : world) :
  (Kind (TypeOf val) ≠ KPtr → Inject fuel c val w = Ok tt w)
  ∧ (∀ t, Inject (S fuel) c (Dyn (TPtr t) VZero) w = Ok tt w).
Proof.
  split.
  - intros Hk. destruct val as [t v]. unfold Inject, inject, inject_with, ValueOf.
    simpl dtype in *. simpl dval. unfold TypeOf in Hk. simpl in Hk.
    assert (Hd : deref fuel (RV t (Imm v) false) w = Ok (RV t (Imm v) false) w).
    { destruct t, fuel; try reflexivity; by destruct Hk. }
    unfold bind. rewrite Hd.
    destruct t; try reflexivity.
    apply inject_fields_none. intros tf _. reflexivity.
  - intros t. unfold Inject, inject, inject_with, ValueOf, bind. simpl.
    by destruct fuel.
Qed.

(** *** Failures of Call *)

Lemma Call_loop_stops (rec : type → M rvalue) (mid : list type) (w w1 : world)
    (vs : list rvalue) :
  resolve_all rec mid w vs w1 →
  ∀ (done : list type) (vs_done : list rvalue) (t : type) (rest : list type)
    (w2 : world),
    length done = length vs_done →
    rec t w1 = Panic w2 →
    Call_loop rec (done ++ mid ++ t :: rest) (length (mid ++ t :: rest))
      (length done) (vs_done ++ replicate (length (mid ++ t :: rest)) Invalid) w
    = Panic w2.
Proof.
  induction 1 as [w | u ts w v w1 vs w3 Hrec Hall IH];
    intros done vs_done t rest w2 Hlen Hp.
  - cbn [app length Call_loop].
    rewrite list_lookup_middle by reflexivity.
    unfold bind. by rewrite Hp.
  - cbn [app length Call_loop].
    rewrite list_lookup_middle by reflexivity.
    unfold bind. rewrite Hrec.
    replace (<[length done := v]>
               (vs_done ++ replicate (S (length (ts ++ t :: rest))) Invalid))
      with (vs_done ++ v :: replicate (length (ts ++ t :: rest)) Invalid).
    2: { rewrite Hlen. cbn [replicate].
         rewrite (insert_app_r_alt vs_done _ (length vs_done)) by lia.
         by rewrite Nat.sub_diag. }
    specialize (IH (done ++ [u]) (vs_done ++ [v]) t rest w2).
    rewrite !length_app in IH. simpl in IH.
    rewrite <- !app_assoc in IH. simpl in IH.
    rewrite Nat.add_1_r in IH. rewrite length_app. simpl.
    apply IH; [lia | exact Hp].
Qed.

Lemma arg_values_Invalid (w : world) (args : list rvalue) :
  Invalid ∈ args → ∀ pin, arg_values w pin args = None.
Proof.
  induction args as [|x args IH]; intros Hin pin; [by apply elem_of_nil in Hin |].
  destruct pin as [|targ pin]; [reflexivity |]. simpl.
  apply elem_of_cons in Hin as [<- | Hin]; [reflexivity |].
  rewrite (IH Hin). by destruct (arg_value w targ x).
Qed.

Lemma variadic_values_Invalid (w : world) (pin : list type) :
  ∀ args, Invalid ∈ args → variadic_values w pin args = None.
Proof.
  induction pin as [|targ pin IH]; intros args Hin; [reflexivity |].
  destruct pin as [|t' pin].
  - simpl. destruct targ as [ | | | | | | elem | | | | ]; try reflexivity.
    destruct (mapM (arg_value w elem) args) as [xs|] eqn:E; [| reflexivity].
    apply mapM_Some in E. exfalso.
    apply list_elem_of_lookup in Hin as [i Hi].
    destruct (Forall2_lookup_l _ _ _ i Invalid E Hi) as (y & _ & Hy).
    discriminate Hy.
  - destruct args as [|x args]; [reflexivity |].
    change (variadic_values w (targ :: t' :: pin) (x :: args))
      with (match arg_value w targ x, variadic_values w (t' :: pin) args with
            | Some v, Some vs => Some (v :: vs)
            | _, _ => None
            end).
    apply elem_of_cons in Hin as [<- | Hin]; [reflexivity |].
    rewrite (IH args Hin). by destruct (arg_value w targ x).
Qed.

Lemma call_values_Invalid (w : world) (pin : list type) (variadic : bool)
    (args : list rvalue) :
  Invalid ∈ args → call_values w pin variadic args = None.
Proof.
  intros Hin. unfold call_values. destruct variadic.
  - by apply variadic_values_Invalid.
  - by apply arg_values_Invalid.
Qed.

(** X15. [Call] stops at the first failure. When resolving a parameter
    panics, the parameters after it are not resolved. When the
    parameters are resolved and one of the values is rejected as an
    argument, the zero Value for one, or the function is nil, [Call]
    panics in the state the resolution left: the function is not run.
    A panic of the function is the panic of [Call]. *)
Theorem X15_Call_stops_at_the_first_failure (fuel : nat) (c : cid) (f : dyn)
    (pin pout : list type) (variadic : bool) (w : world) :
  dtype f = TFunc pin pout variadic →
  (∀ done t rest args w1 w2,
     pin = done ++ t :: rest →
     resolve_all (build fuel c) done w args w1 →
     build fuel c t w1 = Panic w2 →
     Call fuel c f w = Panic w2)
  ∧ (∀ args w1,
       resolve_all (build fuel c) pin w args w1 →
       (call_values w1 pin variadic args = None → Call fuel c f w = Panic w1)
       ∧ (Invalid ∈ args → Call fuel c f w = Panic w1)
       ∧ ((∀ id, dval f ≠ VFunc id) → Call fuel c f w = Panic w1)
       ∧ (∀ id vs w2, dval f = VFunc id →
            call_values w1 pin variadic args = Some vs →
            fenv id vs w1 = Panic w2 → Call fuel c f w = Panic w2)).
Proof.
  intros Hty. split.
  - intros done t rest args w1 w2 -> Hall Hp.
    unfold Call, TypeOf. rewrite Hty. unfold bind at 1.
    pose proof (Call_loop_stops _ _ _ _ _ Hall [] [] t rest w2 eq_refl Hp) as E.
    simpl app in E. simpl length in E at 2. by rewrite E.
  - intros args w1 Hall.
    pose proof (Call_loop_resolve_all _ _ _ _ _ Hall [] [] eq_refl) as E.
    simpl in E.
    assert (Hc : Call fuel c f w = (let* s := Value_Call f args in Interfaces s) w1).
    { unfold Call, TypeOf. rewrite Hty. unfold bind at 1. by rewrite E. }
    assert (Hn : call_values w1 pin variadic args = None →
                 Call fuel c f w = Panic w1).
    { intros Hnone. rewrite Hc. unfold bind, Value_Call. rewrite Hty, Hnone.
      by destruct (dval f). }
    split; [exact Hn |].
    split; [intros Hin; by apply Hn, call_values_Invalid |].
    split.
    + intros Hnil. rewrite Hc. unfold bind, Value_Call. rewrite Hty.
      destruct (dval f) as [ | | | | | | | | | id | ]; try reflexivity.
      by destruct (Hnil id).
    + intros id vs w2 Hid Hvs Hp. rewrite Hc. unfold bind, Value_Call.
      by rewrite Hty, Hid, Hvs, Hp.
Qed.

(** *** A struct whose dependencies are registered *)

Section inject_instances.
Variable rec : type → M rvalue.
Variable m : gmap type binding.
Variable b : loc.
Variable S_ : type.
Variable n : nat.

Lemma inject_fields_instances (fs : list field) :
  ∀ (i : nat) (w : world),
    (∀ tf, tf ∈ fs → f_exported tf && tagged tf = true → instance_bound m tf) →
    (∀ t x w0, m !! t = Some (BValue x) → conts w0 = conts w →
               rec t w0 = Ok x w0) →
    is_Some (heap w !! b) →
    i + length fs ≤ length (struct_fields n (load w b)) →
    ∃ w', inject_fields rec (RV S_ (Ref b) false) n i fs w = Ok tt w'
          ∧ conts w' = conts w
          ∧ calls w' = calls w
          ∧ length (heap w') = length (heap w)
          ∧ (∀ a, a ≠ b → keeps a w w')
          ∧ is_Some (heap w' !! b)
          ∧ length (struct_fields n (load w' b))
              = length (struct_fields n (load w b))
          ∧ (∀ j, (i ≤ j → ∀ tf, fs !! (j - i) = Some tf →
                           f_exported tf && tagged tf = false) →
                  get_field n j (load w' b) = get_field n j (load w b))
          ∧ (∀ j tf, i ≤ j → fs !! (j - i) = Some tf →
                     f_exported tf && tagged tf = true →
                     get_field n j (load w' b) = field_value m tf).
Proof.
  induction fs as [|tf fs IH]; intros i w Hbound Hrec Hb Hlen.
  - exists w. simpl. repeat split; try done. intros a _. apply keeps_refl.
  - assert (Htail : ∀ tf', tf' ∈ fs → f_exported tf' && tagged tf' = true →
                           instance_bound m tf')
      by (intros tf' Hin; by apply Hbound, list_elem_of_further).
    cbn [inject_fields]. unfold bind at 1, inject_field.
    replace (Field_CanSet (RV S_ (Ref b) false) tf && _)
      with (f_exported tf && tagged tf) by reflexivity.
    destruct (f_exported tf && tagged tf) eqn:Hinj.
    + destruct (Hbound tf (list_elem_of_here _ _) Hinj) as (d & Hd & Has).
      unfold bind at 1. rewrite (Hrec _ _ w Hd eq_refl).
      unfold Field_Set, ValueOf. rewrite Has. simpl negb. cbv iota.
      set (y := assign (f_type tf) (dtype d) (read w (Imm (dval d)))).
      set (w2 := store b (set_field n i y (load w b)) w).
      assert (Hload2 : load w2 b = set_field n i y (load w b))
        by (by apply load_store).
      destruct (IH (S i) w2 Htail)
        as (w' & Hrun & Hc & Hl & Hh & Hk & Hb' & Hlen' & Hget & Hset).
      { intros t x w0 Hx Hw0. by apply Hrec. }
      { by apply store_is_Some. }
      { rewrite Hload2, length_set_field. simpl in Hlen. lia. }
      exists w'. split; [exact Hrun |].
      split; [by rewrite Hc |]. split; [by rewrite Hl |].
      split. { rewrite Hh. unfold w2, store. simpl. by rewrite length_insert. }
      split. { intros a Ha. eapply keeps_trans; [by apply keeps_store | by apply Hk]. }
      split; [done |].
      split. { by rewrite Hlen', Hload2, length_set_field. }
      split.
      * intros j Hj. rewrite Hget.
        -- assert (j ≠ i).
           { intros ->. specialize (Hj (le_n i) tf).
             rewrite Nat.sub_diag in Hj. specialize (Hj eq_refl). congruence. }
           by rewrite Hload2, get_set_field_ne.
        -- intros Hle tf' Hlk. apply (Hj ltac:(lia)).
           replace (j - i) with (S (j - S i)) by lia. done.
      * intros j tf' Hle Hlk Htf'.
        destruct (decide (j = i)) as [-> | Hne].
        -- rewrite Nat.sub_diag in Hlk. injection Hlk as <-.
           rewrite Hget by (intros ?; lia).
           rewrite Hload2, get_set_field_eq by (simpl in Hlen; lia).
           unfold field_value. rewrite Hinj, Hd. reflexivity.
        -- apply (Hset j tf' ltac:(lia)); [| done].
           replace (j - i) with (S (j - S i)) in Hlk by lia. done.
    + simpl.
      destruct (IH (S i) w Htail Hrec Hb)
        as (w' & Hrun & Hc & Hl & Hh & Hk & Hb' & Hlen' & Hget & Hset).
      { simpl in Hlen. lia. }
      exists w'. repeat split; try done.
      * intros j Hj. apply Hget. intros Hle tf' Hlk. apply (Hj ltac:(lia)).
        replace (j - i) with (S (j - S i)) by lia. done.
      * intros j tf' Hle Hlk Htf'.
        destruct (decide (j = i)) as [-> | Hne].
        -- rewrite Nat.sub_diag in Hlk. injection Hlk as <-. congruence.
        -- apply (Hset j tf' ltac:(lia)); [| done].
           replace (j - i) with (S (j - S i)) in Hlk by lia. done.
Qed.

End inject_instances.

Lemma field_value_plain (m : gmap type binding) (tf : field) :
  f_exported tf && tagged tf = false → field_value m tf = VZero.
Proof. unfold field_value. by intros ->. Qed.

(** X16. A struct type that is not bound, and whose pointer type is not
    bound, in a container without parent whose map binds the type of
    every exported field with an inject tag to an instance assignable to
    the field: [build] makes one new variable, sets each such field to
    the instance bound to its type (boxed when the field is an
    interface) and leaves the other fields zero, and [Make] returns that
    struct. No container changes, no provider is called, and the
    variables that existed keep their values. *)
Theorem X16_struct_of_registered_instances (fuel : nat) (c : cid)
    (name : string) (m : gmap type binding) (w : world) :
  cont w c = Container None m →
  m !! TStruct name = None →
  m !! TPtr (TStruct name) = None →
  (∀ tf, tf ∈ Fields name → f_exported tf && tagged tf = true →
         instance_bound m tf) →
  ∃ w',
    build (S (S fuel)) c (TStruct name) w
      = Ok (RV (TStruct name) (Ref (length (heap w))) false) w'
    ∧ Make (S (S fuel)) c (TStruct name) w
      = Ok (Some (Dyn (TStruct name) (load w' (length (heap w))))) w'
    ∧ (∀ i tf, Fields name !! i = Some tf →
         get_field (length (Fields name)) i (load w' (length (heap w)))
         = field_value m tf)
    ∧ conts w' = conts w
    ∧ calls w' = calls w
    ∧ length (heap w') = S (length (heap w))
    ∧ ∀ a, keeps a w w'.
Proof.
  intros HK HS HP Hbound.
  assert (Hbuild : ∃ w',
    build (S (S fuel)) c (TStruct name) w
      = Ok (RV (TStruct name) (Ref (length (heap w))) false) w'
    ∧ (∀ i tf, Fields name !! i = Some tf →
         get_field (length (Fields name)) i (load w' (length (heap w)))
         = field_value m tf)
    ∧ conts w' = conts w
    ∧ calls w' = calls w
    ∧ length (heap w') = S (length (heap w))
    ∧ ∀ a, keeps a w w').
  { rewrite build_unbound by (by rewrite HK).
    unfold build_fallback, PtrTo. rewrite HK. simpl values.
    rewrite bool_decide_eq_false_2 by (rewrite HP; by intros [? ?]).
    unfold bind at 1.
    change (New (TStruct name) w)
      with (Ok (RV (TPtr (TStruct name)) (Imm (VPtr (length (heap w)))) false)
              (set_heap (heap w ++ [VZero]) w)).
    cbv beta iota. unfold bind at 1. rewrite inject_with_new.
    set (w1 := set_heap (heap w ++ [VZero]) w).
    set (b := length (heap w)).
    assert (Hload1 : load w1 b = VZero) by apply load_alloc.
    destruct (inject_fields_instances (build (S fuel) c) m b (TStruct name)
                (length (Fields name)) (Fields name) 0 w1)
      as (w2 & Hrun & Hc & Hl & Hh & Hk & Hb & Hlen & Hget & Hset).
    { exact Hbound. }
    { intros t x w0 Hx Hw0. apply build_instance.
      rewrite (cont_conts w1 w0 c Hw0). unfold w1. rewrite cont_set_heap, HK.
      exact Hx. }
    { exists VZero. apply (lookup_alloc VZero w). }
    { rewrite Hload1, length_struct_fields_zero. simpl. lia. }
    rewrite Hrun. simpl. exists w2. split; [reflexivity |].
    split.
    { intros i tf Hlk.
      destruct (f_exported tf && tagged tf) eqn:Hinj.
      - apply Hset; [lia | by rewrite Nat.sub_0_r | done].
      - rewrite Hget.
        + rewrite Hload1, get_field_zero. by rewrite field_value_plain.
        + intros _ tf'. rewrite Nat.sub_0_r, Hlk. by intros [= <-]. }
    split; [done |]. split; [done |].
    split. { rewrite Hh. unfold w1. simpl. rewrite length_app. simpl. lia. }
    intros a x Hx.
    assert (a ≠ b) by (apply lookup_lt_Some in Hx; unfold b; lia).
    apply Hk; [done |]. by apply (keeps_alloc a VZero w). }
  destruct Hbuild as (w' & Hb & Hf & Hc & Hl & Hh & Hk).
  exists w'. split; [exact Hb |]. split; [| done].
  unfold Make, bind. rewrite Hb. reflexivity.
Qed.

(** *** Unbound types, at the level of Make *)

Lemma build_scratch (fuel : nat) (c : cid) (t : type) (w : world) :
  values (cont w c) !! t = None →
  parent (cont w c) = None →
  values (cont w c) !! TPtr t = None →
  build (S fuel) c t w =
    match t with
    | TStruct _ =>
        (let* r := New t in inject_with (build fuel c) fuel r;;; Elem r) w
    | TSlice _ => MakeSlice t w
    | TMap _ _ => MakeMap t w
    | TChan _ _ => MakeChan t w
    | TPtr e =>
        (let* v := build fuel c e in
         if CanAddr v then ret (Addr v)
         else let* r := New t in Elem r) w
    | _ => (let* r := New t in Elem r) w
    end.
Proof.
  intros Hn Hp Hptr. rewrite (build_unbound _ _ _ _ Hn Hp).
  unfold build_fallback, PtrTo.
  by rewrite bool_decide_eq_false_2 by (rewrite Hptr; by intros [? ?]).
Qed.

(** X17. What [Make] returns for a type that is bound nowhere, in a
    container without parent: nil for an interface type; the zero value
    for a boolean, a number, a string, an array and a function type; an
    empty slice that is not nil for a slice type; a new empty map or
    channel for a map type and for a channel type with both directions.
    For a channel type with one direction [Make] panics, and nothing is
    changed. *)
Theorem X17_Make_of_an_unbound_type (fuel : nat) (c : cid) (t : type)
    (w : world) :
  values (cont w c) !! t = None →
  parent (cont w c) = None →
  values (cont w c) !! TPtr t = None →
  (Kind t = KInterface →
   Make (S fuel) c t w = Ok None (set_heap (heap w ++ [VZero]) w))
  ∧ (plain t = true → Kind t ≠ KInterface →
     Make (S fuel) c t w
     = Ok (Some (Dyn t VZero)) (set_heap (heap w ++ [VZero]) w))
  ∧ (Kind t = KSlice →
     Make (S fuel) c t w = Ok (Some (Dyn t (VColl []))) w)
  ∧ (Kind t = KMap ∨ (∃ e, t = TChan BothDir e) →
     Make (S fuel) c t w
     = Ok (Some (Dyn t (VHandle (length (heap w)))))
         (set_heap (heap w ++ [VColl []]) w))
  ∧ (∀ d e, t = TChan d e → d ≠ BothDir → Make (S fuel) c t w = Panic w).
Proof.
  intros Hn Hp Hptr. unfold Make, bind.
  rewrite (build_scratch _ _ _ _ Hn Hp Hptr).
  split; [| split; [| split; [| split]]].
  - intros Hk. destruct t; try discriminate. rewrite New_Elem.
    unfold Interface, read. by rewrite load_alloc.
  - intros Hpl Hk. destruct t; try discriminate; try (by destruct Hk);
      rewrite New_Elem; unfold Interface, read; by rewrite load_alloc.
  - intros Hk. destruct t; try discriminate. reflexivity.
  - intros [Hk | [e ->]]; [destruct t; try discriminate |]; reflexivity.
  - intros d e -> Hd. by destruct d.
Qed.

Lemma Make_pointer_version (fuel : nat) (c : cid) (T : type) (a : loc)
    (w : world) :
  values (cont w c) !! T = None →
  parent (cont w c) = None →
  values (cont w c) !! TPtr T = Some (BValue (ValueOf (Dyn (TPtr T) (VPtr a)))) →
  Kind T ≠ KInterface →
  Make (S (S fuel)) c T w = Ok (Some (Dyn T (load w a))) w.
Proof.
  intros Hn Hp Hptr Hk. unfold Make, bind at 1.
  rewrite (build_unbound _ _ _ _ Hn Hp). unfold build_fallback, PtrTo.
  rewrite bool_decide_eq_true_2 by (rewrite Hptr; by eexists).
  unfold bind at 1. rewrite (build_instance _ _ _ _ _ Hptr).
  unfold ValueOf, Elem, read. simpl dtype. simpl dval. cbv iota.
  unfold Interface. destruct T; try reflexivity. by destruct Hk.
Qed.

(** X18. A variable registered by its pointer is shared with the
    container: when only the pointer type [*T] is bound, [Make(T)]
    returns what the variable holds at the time of the call, so that a
    later write to the variable shows in what [Make(T)] returns, as
    TestBuildStructPtr checks, and [Make] of the pointer type keeps
    returning the same pointer. *)
Theorem X18_registered_pointer_shares_the_variable (fuel : nat) (c : cid)
    (T : type) (a : loc) (w : world) :
  values (cont w c) !! T = None →
  parent (cont w c) = None →
  values (cont w c) !! TPtr T = Some (BValue (ValueOf (Dyn (TPtr T) (VPtr a)))) →
  Kind T ≠ KInterface →
  Make (S (S fuel)) c T w = Ok (Some (Dyn T (load w a))) w
  ∧ (∀ y, is_Some (heap w !! a) →
       Make (S (S fuel)) c T (store a y w) = Ok (Some (Dyn T y)) (store a y w)
       ∧ Make (S fuel) c (TPtr T) (store a y w)
         = Ok (Some (Dyn (TPtr T) (VPtr a))) (store a y w)).
Proof.
  intros Hn Hp Hptr Hk. split; [by apply Make_pointer_version |].
  intros y Ha. split.
  - rewrite (Make_pointer_version fuel c T a) by done.
    by rewrite load_store.
  - unfold Make, bind.
    rewrite (build_instance fuel c (TPtr T) (ValueOf (Dyn (TPtr T) (VPtr a))))
      by done.
    reflexivity.
Qed.

(** *** SetParentContainer *)

(** X19. [SetParentContainer] sets the parent of one container and
    nothing else: [ParentContainer] returns what was set, the parents
    of the other containers, all the bindings and the memory stay; the
    last parent set is the one that counts, and setting the parent
    before or after a registration gives the same state. *)
Theorem X19_SetParentContainer_sets_the_parent_only (c : cid) (p : option cid)
    (w : world) :
  let w' := SetParentContainer c p w in
  ParentContainer c w' = p
  ∧ (∀ c', c' ≠ c → ParentContainer c' w' = ParentContainer c' w)
  ∧ (∀ c' u, values (cont w' c') !! u = values (cont w c') !! u)
  ∧ (∀ c' u, HasRegistered c' u w' = HasRegistered c' u w)
  ∧ heap w' = heap w
  ∧ calls w' = calls w
  ∧ (∀ q, SetParentContainer c p (SetParentContainer c q w) = w')
  ∧ (∀ val, Register c val w' = SetParentContainer c p (Register c val w))
  ∧ (∀ f t shared, RegisterProvider c f t shared w'
                   = SetParentContainer c p (RegisterProvider c f t shared w)).
Proof.
  cbv zeta.
  assert (Hv : ∀ c' u, values (cont (SetParentContainer c p w) c') !! u
                       = values (cont w c') !! u).
  { intros c' u. unfold SetParentContainer. rewrite cont_set_cont.
    by destruct (decide (c = c')) as [<- |]. }
  assert (Hs : ∀ t b, set_value c t b (SetParentContainer c p w)
                      = SetParentContainer c p (set_value c t b w)).
  { intros t b. unfold set_value, SetParentContainer.
    rewrite !cont_set_cont_eq. simpl.
    apply world_eq; try reflexivity. simpl. by rewrite !insert_insert_eq. }
  split. { unfold ParentContainer, SetParentContainer. by rewrite cont_set_cont_eq. }
  split. { intros c' Hne. unfold ParentContainer, SetParentContainer.
           by rewrite cont_set_cont_ne. }
  split; [exact Hv |].
  split. { intros c' u. unfold HasRegistered. by rewrite Hv. }
  split; [reflexivity |]. split; [reflexivity |].
  split. { intros q. unfold SetParentContainer. rewrite cont_set_cont_eq. simpl.
           apply world_eq; try reflexivity. simpl. by rewrite insert_insert_eq. }
  split; [intros val; apply Hs | intros f t shared; apply Hs].
Qed.

(** *** What resolution never does to the containers *)

Section invariant.
Variable R : world → world → Prop.
Hypothesis R_refl : ∀ w, R w w.
Hypothesis R_trans : ∀ w1 w2 w3, R w1 w2 → R w2 w3 → R w1 w3.
Hypothesis R_conts : ∀ w w', conts w' = conts w → R w w'.
Hypothesis R_set_value : ∀ c t b w w1, R w w1 → R w (set_value c t b w1).
Hypothesis providers_R : ∀ p c, preserves R (penv p c).

Lemma conts_inv {A} (m : M A) : preserves same_conts m → preserves R m.
Proof using R_conts. apply preserves_weaken. exact R_conts. Qed.

Lemma invoke_inv (p : pid) (c : cid) : preserves R (invoke p c).
Proof using R_trans R_conts providers_R.
  intros w w'. unfold invoke.
  destruct (penv p c w) as [v w1 | w1 |] eqn:E; intros [= <-];
    (eapply R_trans;
     [ apply (providers_R p c w w1); by rewrite E
     | by apply R_conts ]).
Qed.

Lemma deref_inv (k : nat) (v : rvalue) : preserves R (deref k v).
Proof using R_refl R_trans R_conts.
  revert v. induction k as [|k IH]; intros v; destruct v as [|[] st ro];
    try apply (preserves_ret _ R_refl);
    simpl; try apply preserves_unfinished.
  apply (preserves_bind _ R_trans); [| exact IH].
  apply conts_inv, Elem_conts.
Qed.

Lemma inject_fields_inv (rec : type → M rvalue) (v : rvalue) (n : nat)
    (fs : list field) :
  (∀ t, preserves R (rec t)) →
  ∀ i, preserves R (inject_fields rec v n i fs).
Proof using R_refl R_trans R_conts.
  intros Hrec. induction fs as [|tf fs IH]; intros i; simpl.
  - apply (preserves_ret _ R_refl).
  - apply (preserves_bind _ R_trans); [| intros _; apply IH].
    unfold inject_field. destruct (_ && _).
    + apply (preserves_bind _ R_trans); [apply Hrec |].
      intros x. apply conts_inv, Field_Set_conts.
    + apply (preserves_ret _ R_refl).
Qed.

Lemma inject_with_inv (rec : type → M rvalue) (k : nat) (v : rvalue) :
  (∀ t, preserves R (rec t)) →
  preserves R (inject_with rec k v).
Proof using R_refl R_trans R_conts.
  intros Hrec. unfold inject_with.
  apply (preserves_bind _ R_trans); [apply deref_inv |].
  intros [|[] st ro]; try apply (preserves_ret _ R_refl).
  by apply inject_fields_inv.
Qed.

Lemma build_fallback_inv (rec : type → M rvalue) (inj : rvalue → M unit)
    (c : cid) (t : type) :
  (∀ t, preserves R (rec t)) →
  (∀ v, preserves R (inj v)) →
  preserves R (build_fallback rec inj c t).
Proof using R_refl R_trans R_conts.
  intros Hrec Hinj w w'. unfold build_fallback.
  assert (HNE : ∀ t', preserves R (let* r := New t' in Elem r)).
  { intros t'. apply (preserves_bind _ R_trans).
    - apply conts_inv, New_conts.
    - intros r. apply conts_inv, Elem_conts. }
  destruct (bool_decide _).
  - apply (preserves_bind _ R_trans); [apply Hrec |].
    intros v. apply conts_inv, Elem_conts.
  - destruct t; try apply HNE.
    + apply (preserves_bind _ R_trans); [apply conts_inv, New_conts |].
      intros r. apply (preserves_bind _ R_trans); [apply Hinj |].
      intros _. apply conts_inv, Elem_conts.
    + apply (preserves_bind _ R_trans); [apply Hrec |].
      intros v. destruct (CanAddr v); [apply (preserves_ret _ R_refl) |].
      apply HNE.
    + apply conts_inv, MakeSlice_conts.
    + apply conts_inv, MakeMap_conts.
    + apply conts_inv, MakeChan_conts.
Qed.

Lemma build_inv (fuel : nat) :
  ∀ (c : cid) (t : type), preserves R (build fuel c t).
Proof using R_refl R_trans R_conts R_set_value providers_R.
  induction fuel as [|fuel IH]; intros c t w w'; [intros [=] |].
  simpl. destruct (values (cont w c) !! t) as [[vt | p [] | v] |] eqn:Hb.
  - apply IH.
  - simpl. unfold bind.
    destruct (invoke p c w) as [v w1 | w1 |] eqn:E; intros [= <-].
    + apply R_set_value. apply (invoke_inv p c). by rewrite E.
    + apply (invoke_inv p c). by rewrite E.
  - simpl. apply invoke_inv.
  - intros [= <-]. apply R_refl.
  - destruct (parent (cont w c)) as [q|]; [apply IH |].
    apply build_fallback_inv; [apply IH |].
    intros v. apply inject_with_inv, IH.
Qed.

Lemma Call_loop_inv (rec : type → M rvalue) (pin : list type) (k : nat) :
  (∀ t, preserves R (rec t)) →
  ∀ i args, preserves R (Call_loop rec pin k i args).
Proof using R_refl R_trans.
  intros Hrec. induction k as [|k IH]; intros i args; simpl.
  - apply (preserves_ret _ R_refl).
  - destruct (pin !! i); [| apply (preserves_panic _ R_refl)].
    apply (preserves_bind _ R_trans); [apply Hrec |].
    intros v. apply IH.
Qed.

End invariant.

Lemma same_parents_trans (w1 w2 w3 : world) :
  same_parents w1 w2 → same_parents w2 w3 → same_parents w1 w3.
Proof. intros H12 H23 c. by rewrite H23, H12. Qed.

Lemma same_parents_conts (w w' : world) : conts w' = conts w → same_parents w w'.
Proof. intros E c. unfold cont. by rewrite E. Qed.

Lemma same_parents_set_value (c : cid) (t : type) (b : binding) (w w1 : world) :
  same_parents w w1 → same_parents w (set_value c t b w1).
Proof. intros H c'. by rewrite parent_set_value. Qed.

(** X20. Resolution never changes a parent: provided the providers
    change none, every container has after a [Make], an [Inject] or the
    resolution of the arguments of [Call], returned or panicked, the
    parent it had before. *)
Theorem X20_resolution_keeps_the_parents (fuel : nat) (c : cid) (w w' : world) :
  (∀ p c0, preserves same_parents (penv p c0)) →
  (∃ t, final (Make fuel c t w) = Some w')
  ∨ (∃ val, final (Inject fuel c val w) = Some w')
  ∨ (∃ pin, final (Call_loop (build fuel c) pin (length pin) 0
                     (replicate (length pin) Invalid) w) = Some w') →
  ∀ c', ParentContainer c' w' = ParentContainer c' w.
Proof.
  intros Hp Hrun.
  assert (Hb : ∀ fuel c t, preserves same_parents (build fuel c t)).
  { intros fuel0 c0 t0.
    apply (build_inv same_parents); try done.
    - exact same_parents_trans.
    - exact same_parents_conts.
    - exact same_parents_set_value. }
  assert (Hrefl : ∀ w0, same_parents w0 w0) by done.
  change (same_parents w w').
  destruct Hrun as [[t Hf] | [[val Hf] | [pin Hf]]]; revert Hf.
  - apply (preserves_bind _ same_parents_trans); [apply Hb |].
    intros v. apply (conts_inv _ same_parents_conts), Interface_conts.
  - apply (inject_with_inv same_parents); try done.
    + exact same_parents_trans.
    + exact same_parents_conts.
  - apply (Call_loop_inv same_parents); try done.
    exact same_parents_trans.
Qed.

(** X21. [Inject] on a pointer to a struct variable, in a container
    whose map binds the type of every exported field with an inject tag
    to an instance assignable to the field: it returns; each such field
    then holds the instance bound to its type (boxed when the field is
    an interface) and every other field what it held; no container
    changes, no provider is called, no variable is added and no other
    variable is written. *)
Theorem X21_Inject_sets_the_registered_instances (fuel : nat) (c : cid)
    (name : string) (b : loc) (w : world) :
  is_Some (heap w !! b) →
  length (struct_fields (length (Fields name)) (load w b))
    = length (Fields name) →
  (∀ tf, tf ∈ Fields name → f_exported tf && tagged tf = true →
         instance_bound (values (cont w c)) tf) →
  ∃ w',
    Inject (S fuel) c (Dyn (TPtr (TStruct name)) (VPtr b)) w = Ok tt w'
    ∧ (∀ i tf, Fields name !! i = Some tf →
         get_field (length (Fields name)) i (load w' b)
         = if f_exported tf && tagged tf
           then field_value (values (cont w c)) tf
           else get_field (length (Fields name)) i (load w b))
    ∧ conts w' = conts w
    ∧ calls w' = calls w
    ∧ length (heap w') = length (heap w)
    ∧ ∀ a, a ≠ b → keeps a w w'.
Proof.
  intros Hb Hlen Hbound.
  destruct (inject_fields_instances (build (S fuel) c) (values (cont w c)) b
              (TStruct name) (length (Fields name)) (Fields name) 0 w)
    as (w' & Hrun & Hc & Hl & Hh & Hk & _ & _ & Hget & Hset).
  { exact Hbound. }
  { intros t x w0 Hx Hw0. apply build_instance.
    by rewrite (cont_conts w w0 c Hw0). }
  { exact Hb. }
  { rewrite Hlen. simpl. lia. }
  exists w'. split.
  { unfold Inject, inject, ValueOf. simpl dtype. simpl dval.
    rewrite inject_with_new. exact Hrun. }
  split; [| done].
  intros i tf Hlk. destruct (f_exported tf && tagged tf) eqn:Hinj.
  - apply Hset; [lia | by rewrite Nat.sub_0_r | done].
  - apply Hget. intros _ tf'. rewrite Nat.sub_0_r, Hlk. by intros [= <-].
Qed.

End di.

(** * The properties on the test program *)

Abbreviation t_build := (build test_Fields test_Implements test_provider).
Abbreviation t_Make := (Make test_Fields test_Implements test_provider).
Abbreviation t_inject := (inject test_Fields test_Implements test_provider).
Abbreviation t_Call :=
  (Call test_Fields test_Implements test_provider test_function).

Lemma test_provider_keeps (a : loc) (p : pid) (c : cid) :
  preserves (keeps a) (test_provider p c).
Proof. intros w w' [= <-]. apply (keeps_alloc a (VStruct [VStr "abc"]) w). Qed.

Lemma test_provider_caches (p : pid) (c : cid) :
  preserves only_caches (test_provider p c).
Proof. intros w w' [= <-]. by apply only_caches_conts. Qed.

(** TestBuildProvider, shared: the provider runs once, the pointer it
    returned is bound and returned again. *)
Lemma C2_witness :
  ∃ w2,
    t_build 1 0 (TPtr Foo_t) (RegisterProvider 0 7 (TPtr Foo_t) true empty_world)
      = Ok (RV (TPtr Foo_t) (Imm (VPtr 0)) false) w2
    ∧ values (cont w2 0) !! TPtr Foo_t
        = Some (BValue (RV (TPtr Foo_t) (Imm (VPtr 0)) false))
    ∧ t_build 1 0 (TPtr Foo_t) w2 = Ok (RV (TPtr Foo_t) (Imm (VPtr 0)) false) w2
    ∧ invocations 7 w2 = 1.
Proof.
  edestruct (C2_shared_provider_once test_Fields test_Implements test_provider
               0 0 7 (TPtr Foo_t) empty_world)
    as (w2 & H1 & H2 & H3 & H4 & H5 & H6 & H7); [vm_compute; reflexivity |].
  exists w2. split; [exact H1 |]. split; [exact H3 |]. split; [apply H5 |].
  exact H7.
Defined.

(** TestBuildProvider, not shared: two resolutions, two calls. *)
Lemma C3_witness :
  ∃ vs wn,
    resolve_times test_Fields test_Implements test_provider 2 1 0 (TPtr Foo_t)
      (RegisterProvider 0 7 (TPtr Foo_t) false empty_world) = Ok vs wn
    ∧ length vs = 2
    ∧ calls wn = [7; 7]
    ∧ values (cont wn 0) !! TPtr Foo_t = Some (BProvider 7 false).
Proof.
  destruct (C3_unshared_provider_each_time test_Fields test_Implements
              test_provider 2 0 0 7 (TPtr Foo_t) empty_world)
    as (vs & wn & H1 & H2 & H3 & H4 & H5 & H6).
  { intros w' Hb. eexists _, _. split; [reflexivity | exact Hb]. }
  exists vs, wn. split; [exact H1 |]. split; [exact H2 |].
  split; [exact H4 | exact H6].
Defined.


(** TestRegisterInterface: [c.RegisterAs(&foo, writerType)] panics. *)
Lemma C5_witness :
  ∃ w', RegisterAs test_ConvertibleTo 0 (Dyn (TPtr Foo_t) (VPtr 0)) Writer_t
          (World ∅ [VZero] []) = Panic w'
        ∧ w' = World ∅ [VZero] []
        ∧ (∀ c' u, values (cont w' c') !! u
                   = values (cont (World ∅ [VZero] []) c') !! u)
        ∧ HasRegistered 0 Writer_t w' = false.
Proof.
  apply (C5_incompatible_registration_rejected test_ConvertibleTo 0
           (Dyn (TPtr Foo_t) (VPtr 0)) Writer_t (World ∅ [VZero] []));
    vm_compute; reflexivity.
Defined.



(** TestInject. *)
Lemma C8_witness :
  ∃ w',
    t_inject 3 0 (ValueOf (Dyn (TPtr Controller_t) (VPtr 3))) inject_world
      = Ok tt w'
    ∧ get_field 7 2 (load w' 3) = VZero
    ∧ get_field 7 4 (load w' 3) = VZero
    ∧ get_field 7 6 (load w' 3) = VZero
    ∧ get_field 7 1 (load w' 3) = VIface (TPtr ResponseWriter_t) (VPtr 1).
Proof.
  eexists. split; [vm_compute; reflexivity |].
  edestruct (C8_field_injection_selectivity test_Fields test_Implements
               test_provider 3 0 (ValueOf (Dyn (TPtr Controller_t) (VPtr 3)))
               "Controller" 3 false inject_world)
    as (_ & Hkeep & Hset & _).
  - intros p c0. apply test_provider_keeps.
  - vm_compute. reflexivity.
  - vm_compute. eauto.
  - vm_compute. reflexivity.
  - vm_compute. reflexivity.
  - split; [| split; [| split]].
    + etransitivity;
        [apply (Hkeep 2 (Field "response" Writer_t false false inject_true));
         reflexivity | vm_compute; reflexivity].
    + etransitivity;
        [apply (Hkeep 4 (Field "Response3" Writer_t true false []));
         reflexivity | vm_compute; reflexivity].
    + etransitivity;
        [apply (Hkeep 6 (Field "action" TString false false []));
         reflexivity | vm_compute; reflexivity].
    + destruct (Hset ltac:(vm_compute; reflexivity) 1
                  (Field "Response" Writer_t true false inject_true)
                  eq_refl eq_refl)
        as (wi & x & w1 & Hpre & Hb & _ & Hget).
      vm_compute in Hpre. injection Hpre as <-.
      vm_compute in Hb. injection Hb as <- <-.
      etransitivity; [exact Hget | vm_compute; reflexivity].
Defined.


(** TestBuildProvider, shared: resolving [*Foo] caches the instance and
    leaves every [HasRegistered] answer as it was. *)
Lemma C10_witness :
  ∃ w',
    final (t_Make 1 0 (TPtr Foo_t)
             (RegisterProvider 0 7 (TPtr Foo_t) true empty_world)) = Some w'
    ∧ only_caches (RegisterProvider 0 7 (TPtr Foo_t) true empty_world) w'
    ∧ ∀ c' u, HasRegistered c' u w'
              = HasRegistered c' u
                  (RegisterProvider 0 7 (TPtr Foo_t) true empty_world).
Proof.
  eexists. split; [vm_compute; reflexivity |].
  apply (C10_resolution_keeps_the_bound_types test_Fields test_Implements
           test_provider test_function 1 0).
  - intros p c0. apply test_provider_caches.
  - left. exists (TPtr Foo_t). vm_compute. reflexivity.
Defined.



(** ** The further properties on the test program *)

Lemma test_provider_parents (p : pid) (c : cid) :
  preserves same_parents (test_provider p c).
Proof. intros w w' [= <-]. by apply same_parents_conts. Qed.

(** TestRegister: [100] and [Foo{"abc"}], in either order. *)
Lemma X4_witness :
  Register 0 (Dyn Foo_t (VStruct [VStr "abc"]))
    (Register 0 (Dyn TInt (VInt 100)) empty_world)
  = Register 0 (Dyn TInt (VInt 100))
      (Register 0 (Dyn Foo_t (VStruct [VStr "abc"])) empty_world).
Proof.
  apply (X4_registrations_commute 0 0 (Dyn Foo_t (VStruct [VStr "abc"]))
           (Dyn TInt (VInt 100)) 0 TInt true empty_world); discriminate.
Defined.

(** TestRegisterInterface: [c.RegisterAs(&foo, barType)]. *)
Lemma X5_witness :
  ∃ w', RegisterAs test_ConvertibleTo 0 (Dyn (TPtr Foo_t) (VPtr 0)) Bar_t
          (World ∅ [VZero] []) = Ok tt w'
        ∧ HasRegistered 0 Bar_t w' = true
        ∧ HasRegistered 0 (TPtr Foo_t) w' = false
        ∧ t_Make 1 0 Bar_t w' = Ok (Some (Dyn (TPtr Foo_t) (VPtr 0))) w'.
Proof.
  destruct (X5_RegisterAs_binds_the_value test_Fields test_Implements
              test_ConvertibleTo test_provider 0 0 (Dyn (TPtr Foo_t) (VPtr 0))
              Bar_t (World ∅ [VZero] []))
    as (w' & H1 & _ & H3 & _ & H5 & _ & _ & _ & _ & _ & H11);
    [reflexivity | vm_compute; reflexivity |].
  exists w'. split; [exact H1 |]. split; [exact H3 |]. split.
  - etransitivity; [apply H5; discriminate | vm_compute; reflexivity].
  - apply H11. discriminate.
Defined.

(** TestBuildInject: [c.RegisterAs(reflect.TypeOf(&ResponseWriter{}),
    writerType)]; TestRegisterInterface2: [c.RegisterAs(fooType,
    writerType)] panics. *)
Lemma X6_witness :
  (∃ w', RegisterAs test_ConvertibleTo 0
           (Dyn rtype_ptr (VType (TPtr ResponseWriter_t))) Writer_t empty_world
         = Ok tt w'
         ∧ HasRegistered 0 Writer_t w' = true
         ∧ ∀ fuel, t_build (S fuel) 0 Writer_t w'
                   = t_build fuel 0 (TPtr ResponseWriter_t) w')
  ∧ RegisterAs test_ConvertibleTo 0 (Dyn rtype_ptr (VType (TPtr Foo_t)))
      Writer_t empty_world
    = Panic empty_world.
Proof.
  split.
  - destruct (X6_RegisterAs_type_makes_an_alias test_Fields test_Implements
                test_ConvertibleTo test_provider 0
                (Dyn rtype_ptr (VType (TPtr ResponseWriter_t)))
                (TPtr ResponseWriter_t) Writer_t empty_world eq_refl)
      as [_ H].
    destruct H as (w' & H1 & _ & H3 & _ & _ & _ & H7 & _);
      [vm_compute; reflexivity |].
    exists w'. split; [exact H1 |]. split; [exact H3 | exact H7].
  - destruct (X6_RegisterAs_type_makes_an_alias test_Fields test_Implements
                test_ConvertibleTo test_provider 0
                (Dyn rtype_ptr (VType (TPtr Foo_t)))
                (TPtr Foo_t) Writer_t empty_world eq_refl)
      as [H _].
    apply H. vm_compute. reflexivity.
Defined.

(** The parent maps [Bar] to [*Foo] and binds [*Foo] to the variable 1;
    the child binds [*Foo] to the variable 0, to no effect. *)
Lemma X7_witness :
  t_build 3 0 Bar_t
    (SetParentContainer 0 (Some 1)
       (Register 0 (Dyn (TPtr Foo_t) (VPtr 0))
          (Register 1 (Dyn (TPtr Foo_t) (VPtr 1))
             (set_value 1 Bar_t (BType (TPtr Foo_t))
                (World ∅ [VZero; VZero] [])))))
  = Ok (RV (TPtr Foo_t) (Imm (VPtr 1)) false)
      (SetParentContainer 0 (Some 1)
         (Register 0 (Dyn (TPtr Foo_t) (VPtr 0))
            (Register 1 (Dyn (TPtr Foo_t) (VPtr 1))
               (set_value 1 Bar_t (BType (TPtr Foo_t))
                  (World ∅ [VZero; VZero] []))))).
Proof.
  destruct (X7_alias_of_the_parent_stays_in_the_parent test_Fields
              test_Implements test_provider 0 0 1 Bar_t (TPtr Foo_t)
              (SetParentContainer 0 (Some 1)
                 (Register 0 (Dyn (TPtr Foo_t) (VPtr 0))
                    (Register 1 (Dyn (TPtr Foo_t) (VPtr 1))
                       (set_value 1 Bar_t (BType (TPtr Foo_t))
                          (World ∅ [VZero; VZero] []))))))
    as [_ H]; [vm_compute; reflexivity ..|].
  apply H. vm_compute. reflexivity.
Defined.

(** A container that is its own parent: resolving [Foo] never ends. *)
Lemma X8_witness :
  hop (SetParentContainer 0 (Some 0) empty_world) 0 Foo_t = Some (0, Foo_t)
  ∧ ∀ fuel,
      t_build fuel 0 Foo_t (SetParentContainer 0 (Some 0) empty_world)
        = Unfinished
      ∧ t_Make fuel 0 Foo_t (SetParentContainer 0 (Some 0) empty_world)
        = Unfinished.
Proof.
  split; [vm_compute; reflexivity |]. intros fuel.
  apply (X8_resolution_in_a_cycle_never_ends test_Fields test_Implements
           test_provider (λ c t, c = 0 ∧ t = Foo_t)
           (SetParentContainer 0 (Some 0) empty_world)).
  - intros c t [-> ->]. exists 0, Foo_t. split; [vm_compute; reflexivity | done].
  - done.
Defined.

(** TestParent, one level more: [Foo{"abc"}] is registered in the
    grandparent. *)
Lemma X9_witness :
  t_build 3 0 Foo_t
    (SetParentContainer 0 (Some 1)
       (SetParentContainer 1 (Some 2)
          (Register 2 (Dyn Foo_t (VStruct [VStr "abc"])) empty_world)))
  = Ok (RV Foo_t (Imm (VStruct [VStr "abc"])) false)
      (SetParentContainer 0 (Some 1)
         (SetParentContainer 1 (Some 2)
            (Register 2 (Dyn Foo_t (VStruct [VStr "abc"])) empty_world)))
  ∧ HasRegistered 0 Foo_t
      (SetParentContainer 0 (Some 1)
         (SetParentContainer 1 (Some 2)
            (Register 2 (Dyn Foo_t (VStruct [VStr "abc"])) empty_world)))
    = false.
Proof.
  destruct (X9_nearest_ancestor_resolves test_Fields test_Implements
              test_provider 0 2 0 2 Foo_t
              (SetParentContainer 0 (Some 1)
                 (SetParentContainer 1 (Some 2)
                    (Register 2 (Dyn Foo_t (VStruct [VStr "abc"])) empty_world))))
    as (_ & _ & H3 & _ & H5).
  - apply (anc_up _ _ 0 1 1 2); [vm_compute; reflexivity ..|].
    apply (anc_up _ _ 1 2 0 2); [vm_compute; reflexivity ..|].
    apply anc_here.
  - split; [apply H3; vm_compute; reflexivity | apply H5; lia].
Defined.

(** TestBuildProvider, with the shared provider registered in the
    parent. *)
Lemma X10_witness :
  ∃ w2,
    t_build 2 0 (TPtr Foo_t)
      (SetParentContainer 0 (Some 1)
         (RegisterProvider 1 7 (TPtr Foo_t) true empty_world))
    = Ok (RV (TPtr Foo_t) (Imm (VPtr 0)) false) w2
    ∧ values (cont w2 1) !! TPtr Foo_t
      = Some (BValue (RV (TPtr Foo_t) (Imm (VPtr 0)) false))
    ∧ HasRegistered 0 (TPtr Foo_t) w2 = false
    ∧ calls w2 = [7].
Proof.
  edestruct (X10_shared_provider_of_the_parent test_Fields test_Implements
               test_provider 0 0 1 7 (TPtr Foo_t)
               (SetParentContainer 0 (Some 1)
                  (RegisterProvider 1 7 (TPtr Foo_t) true empty_world)))
    as (w2 & H1 & H2 & _ & H4 & H5 & _); [vm_compute; reflexivity ..|].
  exists w2. split; [exact H1 |]. split; [exact H2 |]. split.
  - etransitivity; [apply H4; discriminate | vm_compute; reflexivity].
  - exact H5.
Defined.

(** A provider that panics, and a shared one that returns the zero
    Value. *)
Lemma X11_witness :
  (∃ w', Make test_Fields test_Implements (λ _ _ w, Panic w) 1 0 Foo_t
           (RegisterProvider 0 7 Foo_t true empty_world) = Panic w'
         ∧ calls w' = [7])
  ∧ (∃ w', Make test_Fields test_Implements (λ _ _ w, Ok Invalid w) 1 0 Foo_t
             (RegisterProvider 0 7 Foo_t true empty_world) = Panic w'
           ∧ values (cont w' 0) !! Foo_t = Some (BValue Invalid)
           ∧ Make test_Fields test_Implements (λ _ _ w, Ok Invalid w) 1 0 Foo_t w'
             = Panic w').
Proof.
  split.
  - destruct (X11_failing_provider test_Fields test_Implements
                (λ _ _ w, Panic w) 0 0 7 Foo_t true
                (RegisterProvider 0 7 Foo_t true empty_world)
                (RegisterProvider 0 7 Foo_t true empty_world))
      as [H _]; [vm_compute; reflexivity |].
    destruct H as (w' & _ & H2 & _ & _ & H5); [reflexivity |].
    exists w'. split; [exact H2 | exact H5].
  - destruct (X11_failing_provider test_Fields test_Implements
                (λ _ _ w, Ok Invalid w) 0 0 7 Foo_t true
                (RegisterProvider 0 7 Foo_t true empty_world)
                (RegisterProvider 0 7 Foo_t true empty_world))
      as [_ H]; [vm_compute; reflexivity |].
    destruct H as (w' & _ & H2 & H3 & H4); [reflexivity | reflexivity |].
    exists w'. split; [exact H2 |]. split; [exact H3 | apply H4].
Defined.

(** TestBuildProvider, not shared, in a program that has a variable. *)
Lemma X12_witness :
  ∃ w',
    final (t_Make 1 0 (TPtr Foo_t)
             (RegisterProvider 0 7 (TPtr Foo_t) false (World ∅ [VInt 5] [])))
    = Some w'
    ∧ heap w' !! 0 = Some (VInt 5)
    ∧ 1 ≤ length (heap w').
Proof.
  eexists. split; [vm_compute; reflexivity |].
  edestruct (X12_resolution_keeps_the_variables test_Fields test_Implements
               test_provider 1 0
               (RegisterProvider 0 7 (TPtr Foo_t) false (World ∅ [VInt 5] [])))
    as [Hk Hl].
  - intros a p c0. apply test_provider_keeps.
  - left. exists (TPtr Foo_t). vm_compute. reflexivity.
  - split; [apply (Hk 0); reflexivity | exact Hl].
Defined.

(** TestInject: the variable of [Context{"abc"}] stays. *)
Lemma X13_witness :
  ∃ w',
    final (Inject test_Fields test_Implements test_provider 3 0
             (Dyn (TPtr Controller_t) (VPtr 3)) inject_world) = Some w'
    ∧ heap w' !! 0 = Some (VStruct [VStr "abc"]).
Proof.
  eexists. split; [vm_compute; reflexivity |].
  apply (X13_Inject_writes_its_struct_only test_Fields test_Implements
           test_provider 3 0 (Dyn (TPtr Controller_t) (VPtr 3)) "Controller"
           0 3 false inject_world).
  - intros p c0. apply test_provider_keeps.
  - vm_compute. reflexivity.
  - discriminate.
  - vm_compute. reflexivity.
  - reflexivity.
Defined.

(** A nil [*Foo] is registered and a [func(Foo)] is called: the
    argument resolved is the zero Value. *)
Lemma X15_witness :
  t_Call 2 0 (Dyn (TFunc [Foo_t] [] false) (VFunc 0))
    (Register 0 (Dyn (TPtr Foo_t) VZero) empty_world)
  = Panic (Register 0 (Dyn (TPtr Foo_t) VZero) empty_world).
Proof.
  destruct (X15_Call_stops_at_the_first_failure test_Fields test_Implements
              test_provider test_function 2 0
              (Dyn (TFunc [Foo_t] [] false) (VFunc 0)) [Foo_t] [] false
              (Register 0 (Dyn (TPtr Foo_t) VZero) empty_world) eq_refl)
    as [_ H].
  destruct (H [Invalid] (Register 0 (Dyn (TPtr Foo_t) VZero) empty_world))
    as (_ & H2 & _).
  - eapply resolve_cons; [vm_compute; reflexivity | apply resolve_nil].
  - apply H2. apply list_elem_of_here.
Defined.

(** TestInject's registrations: a [Request] built from scratch holds
    the [*Foo] registered as [Bar]. *)
Lemma X16_witness :
  ∃ w',
    t_build 2 0 Request_t inject_world = Ok (RV Request_t (Ref 4) false) w'
    ∧ get_field 1 0 (load w' 4) = VIface (TPtr Foo_t) (VPtr 2).
Proof.
  edestruct (X16_struct_of_registered_instances test_Fields test_Implements
               test_provider 0 0 "Request" (values (cont inject_world 0))
               inject_world)
    as (w' & Hb & _ & Hf & _).
  - vm_compute. reflexivity.
  - vm_compute. reflexivity.
  - vm_compute. reflexivity.
  - intros tf Hin _. vm_compute in Hin.
    apply elem_of_cons in Hin as [-> | Hin]; [| by apply elem_of_nil in Hin].
    exists (Dyn (TPtr Foo_t) (VPtr 2)). split; vm_compute; reflexivity.
  - exists w'. split; [exact Hb |].
    etransitivity;
      [apply (Hf 0 (Field "Bar" Bar_t true false inject_true)); reflexivity
      | vm_compute; reflexivity].
Defined.

(** TestBuildInterface and TestBuildComplex: an unregistered interface,
    an unregistered slice type; and a send-only channel type. *)
Lemma X17_witness :
  t_Make 1 0 Bar_t empty_world = Ok None (World ∅ [VZero] [])
  ∧ t_Make 1 0 (TSlice TInt) empty_world
    = Ok (Some (Dyn (TSlice TInt) (VColl []))) empty_world
  ∧ t_Make 1 0 (TChan SendDir Foo_t) empty_world = Panic empty_world.
Proof.
  split; [| split].
  - destruct (X17_Make_of_an_unbound_type test_Fields test_Implements
                test_provider 0 0 Bar_t empty_world) as [H _];
      [vm_compute; reflexivity ..|].
    apply H. reflexivity.
  - destruct (X17_Make_of_an_unbound_type test_Fields test_Implements
                test_provider 0 0 (TSlice TInt) empty_world) as (_ & _ & H & _);
      [vm_compute; reflexivity ..|].
    apply H. reflexivity.
  - destruct (X17_Make_of_an_unbound_type test_Fields test_Implements
                test_provider 0 0 (TChan SendDir Foo_t) empty_world)
      as (_ & _ & _ & _ & H); [vm_compute; reflexivity ..|].
    by apply (H SendDir Foo_t).
Defined.

(** TestBuildStructPtr: [foo1.a = "test"] shows in [Make(Foo)]. *)
Lemma X18_witness :
  t_Make 2 0 Foo_t
    (Register 0 (Dyn (TPtr Foo_t) (VPtr 0)) (World ∅ [VStruct [VStr "abc"]] []))
  = Ok (Some (Dyn Foo_t (VStruct [VStr "abc"])))
      (Register 0 (Dyn (TPtr Foo_t) (VPtr 0)) (World ∅ [VStruct [VStr "abc"]] []))
  ∧ t_Make 2 0 Foo_t
      (store 0 (VStruct [VStr "test"])
         (Register 0 (Dyn (TPtr Foo_t) (VPtr 0))
            (World ∅ [VStruct [VStr "abc"]] [])))
    = Ok (Some (Dyn Foo_t (VStruct [VStr "test"])))
        (store 0 (VStruct [VStr "test"])
           (Register 0 (Dyn (TPtr Foo_t) (VPtr 0))
              (World ∅ [VStruct [VStr "abc"]] []))).
Proof.
  destruct (X18_registered_pointer_shares_the_variable test_Fields
              test_Implements test_provider 0 0 Foo_t 0
              (Register 0 (Dyn (TPtr Foo_t) (VPtr 0))
                 (World ∅ [VStruct [VStr "abc"]] [])))
    as (H1 & H2); [vm_compute; reflexivity .. | discriminate |].
  split; [exact H1 |].
  destruct (H2 (VStruct [VStr "test"])) as [H _]; [by eexists | exact H].
Defined.

(** TestParent: the child still has its parent after [Make]. *)
Lemma X20_witness :
  ∃ w',
    final (t_Make 2 0 Foo_t
             (SetParentContainer 0 (Some 1)
                (Register 1 (Dyn Foo_t (VStruct [VStr "abc"])) empty_world)))
    = Some w'
    ∧ ParentContainer 0 w' = Some 1.
Proof.
  eexists. split; [vm_compute; reflexivity |].
  etransitivity;
    [apply (X20_resolution_keeps_the_parents test_Fields test_Implements
              test_provider 2 0
              (SetParentContainer 0 (Some 1)
                 (Register 1 (Dyn Foo_t (VStruct [VStr "abc"])) empty_world)));
     [intros p c0; apply test_provider_parents
     | left; exists Foo_t; vm_compute; reflexivity]
    | vm_compute; reflexivity].
Defined.

(** [&Foo{"xyz"}] is registered and a [ResponseWriter{t: 123}] is
    injected: its field [Foo] gets the pointer, its field [t] stays. *)
Lemma X21_witness :
  ∃ w',
    Inject test_Fields test_Implements test_provider 1 0
      (Dyn (TPtr ResponseWriter_t) (VPtr 1))
      (Register 0 (Dyn (TPtr Foo_t) (VPtr 0))
         (World ∅ [VStruct [VStr "xyz"]; VStruct [VZero; VInt 123]] []))
    = Ok tt w'
    ∧ get_field 2 0 (load w' 1) = VPtr 0
    ∧ get_field 2 1 (load w' 1) = VInt 123.
Proof.
  destruct (X21_Inject_sets_the_registered_instances test_Fields
              test_Implements test_provider 0 0 "ResponseWriter" 1
              (Register 0 (Dyn (TPtr Foo_t) (VPtr 0))
                 (World ∅ [VStruct [VStr "xyz"]; VStruct [VZero; VInt 123]] [])))
    as (w' & Hrun & Hf & _).
  - by eexists.
  - reflexivity.
  - intros tf Hin Hinj. vm_compute in Hin.
    apply elem_of_cons in Hin as [-> | Hin].
    + exists (Dyn (TPtr Foo_t) (VPtr 0)). split; vm_compute; reflexivity.
    + apply elem_of_cons in Hin as [-> | Hin]; [discriminate Hinj |].
      by apply elem_of_nil in Hin.
  - exists w'. split; [exact Hrun |]. split.
    + etransitivity;
        [apply (Hf 0 (Field "Foo" (TPtr Foo_t) true false inject_true));
         reflexivity
        | vm_compute; reflexivity].
    + etransitivity;
        [apply (Hf 1 (Field "t" TInt false false [])); reflexivity
        | vm_compute; reflexivity].
Defined.
